(** * git-churn: churn metrics and commit ranges over a git backend

    A shallow embedding of [gitfuncs/gitfuncs.go] and of the file metrics
    calculator of package [metrics], with the go-git calls they make
    modelled on an explicit object store.

    Conventions.
    - A Go [string] is a Rocq [string] of bytes.
    - A Go [int] is 64 bits wide; every [int] of this program counts bytes,
      lines or list elements that exist in memory, so no operation wraps
      and [Z] is used as it stands.
    - A Go function returning [(T, error)] returns an [outcome T]; a
      run-time panic is an outcome of its own. A function that hands its
      errors to [CheckIfError] has an [outcome] too: its Go signature has no
      error, and [Err] is then the error that was handed over. *)

From Stdlib Require Import ZArith Ascii String List Sorted Permutation Lia.
From stdpp Require Import base option list sets gmap strings sorting relations.

Local Open Scope string_scope.
Local Open Scope list_scope.
Local Open Scope Z_scope.

(* ===================================================================== *)
(** ** Outcomes of a call *)
(* ===================================================================== *)

Inductive error : Type :=
  | ErrObjectNotFound      (* plumbing.ErrObjectNotFound *)
  | ErrReferenceNotFound   (* plumbing.ErrReferenceNotFound *)
  | ErrParentNotFound      (* object.ErrParentNotFound *)
  | ErrFileNotFound        (* object.ErrFileNotFound *)
  | ErrorNew (msg : string). (* errors.New(msg) *)

Inductive outcome (A : Type) : Type :=
  | Ok (a : A)             (* returned normally, with a nil error *)
  | Err (e : error)        (* failed with a non-nil error *)
  | Panic                  (* run-time panic, e.g. index out of range *)
  | OutOfFuel.             (* the model's recursion bound was reached; no run
                              of the program ends so (see [walk_fuel]) *)

Arguments Ok {A} a.
Arguments Err {A} e.
Arguments Panic {A}.
Arguments OutOfFuel {A}.

#[global] Instance outcome_ret : MRet outcome := fun A a => Ok a.

#[global] Instance outcome_bind : MBind outcome := fun A B k x =>
  match x with
  | Ok a => k a
  | Err e => Err e
  | Panic => Panic
  | OutOfFuel => OutOfFuel
  end.

(** Modelled from the spec: [CheckIfError] of package [print], which the
    sources call after each backend call and which is not among them. The
    specification has one policy for the errors of backend calls: they
    propagate to the caller unchanged in kind. So a call whose error is
    handed to [CheckIfError] goes on when the error is nil, and otherwise
    fails for its caller with that error. *)
Definition CheckIfError {A} (x : outcome A) : outcome A :=
  match x with
  | Ok a => Ok a
  | Err e => Err e
  | Panic => Panic
  | OutOfFuel => OutOfFuel
  end.

Definition isOk {A} (x : outcome A) : bool :=
  match x with Ok _ => true | _ => false end.

(* ===================================================================== *)
(** ** The functions of package [strings] the program calls *)
(* ===================================================================== *)

Module strings.

Definition newline : ascii := "010"%char.

Fixpoint HasPrefix (s prefix : string) {struct prefix} : bool :=
  match prefix, s with
  | EmptyString, _ => true
  | String p prefix', String c s' => if decide (c = p) then HasPrefix s' prefix' else false
  | String _ _, EmptyString => false
  end.

(** [explode s]: one string per byte; what [Split] does for an empty
    separator (on text that is ASCII). *)
Fixpoint explode (s : string) : list string :=
  match s with
  | EmptyString => []
  | String c s' => String c EmptyString :: explode s'
  end.

(** [splitFrom sep skip s]: the pieces of [s] between the leftmost,
    non-overlapping occurrences of [sep]; [skip] bytes of an occurrence
    already matched are still to be passed over. The result is never
    empty: its head is the piece being read. *)
Fixpoint splitFrom (sep : string) (skip : nat) (s : string) : list string :=
  match s with
  | EmptyString => [EmptyString]
  | String c s' =>
      match skip with
      | S k => splitFrom sep k s'
      | O =>
          if HasPrefix s sep
          then EmptyString :: splitFrom sep (String.length sep - 1) s'
          else match splitFrom sep 0 s' with
               | p :: ps => String c p :: ps
               | [] => [String c EmptyString]
               end
      end
  end.

(** [strings.Split(s, sep)] *)
Definition Split (s sep : string) : list string :=
  match sep with
  | EmptyString => explode s
  | _ => splitFrom sep 0 s
  end.

(** The code points [unicode.IsSpace] accepts, in UTF-8. *)
Definition bytes (l : list nat) : string :=
  string_of_list_ascii (map ascii_of_nat l).

Definition spaces : list string :=
  map bytes
    [ [9]; [10]; [11]; [12]; [13]; [32];
      [194; 133]; [194; 160]; [225; 154; 128];
      [226; 128; 128]; [226; 128; 129]; [226; 128; 130]; [226; 128; 131];
      [226; 128; 132]; [226; 128; 133]; [226; 128; 134]; [226; 128; 135];
      [226; 128; 136]; [226; 128; 137]; [226; 128; 138];
      [226; 128; 168]; [226; 128; 169]; [226; 128; 175];
      [226; 129; 159]; [227; 128; 128] ]%nat.

Fixpoint dropPrefix (s prefix : string) {struct prefix} : string :=
  match prefix, s with
  | String _ prefix', String _ s' => dropPrefix s' prefix'
  | _, _ => s
  end.

(** The first space that [s] starts with, if any. *)
Definition leadingSpace (s : string) : option string :=
  List.find (HasPrefix s) spaces.

(** [strings.TrimLeftFunc(s, unicode.IsSpace)]; each round removes at
    least one byte, so the length of [s] is fuel enough. *)
Fixpoint trimLeft (fuel : nat) (s : string) : string :=
  match fuel with
  | O => s
  | S fuel' =>
      match leadingSpace s with
      | Some sp => trimLeft fuel' (dropPrefix s sp)
      | None => s
      end
  end.

Definition reverse (s : string) : string :=
  string_of_list_ascii (rev (list_ascii_of_string s)).

Definition trailingSpace (r : string) : option string :=
  List.find (fun sp => HasPrefix r (reverse sp)) spaces.

(** The same from the right, on the reversed string. *)
Fixpoint trimRightRev (fuel : nat) (r : string) : string :=
  match fuel with
  | O => r
  | S fuel' =>
      match trailingSpace r with
      | Some sp => trimRightRev fuel' (dropPrefix r sp)
      | None => r
      end
  end.

(** [strings.TrimSpace(s)] *)
Definition TrimSpace (s : string) : string :=
  let l := trimLeft (String.length s) s in
  reverse (trimRightRev (String.length l) (reverse l)).

(** [s[len(s)-1]]; [None] is the index out of range of an empty [s]. *)
Fixpoint lastByte (s : string) : option ascii :=
  match s with
  | EmptyString => None
  | String c EmptyString => Some c
  | String _ s' => lastByte s'
  end.

(** [strings.Count(s, "\n")] *)
Fixpoint countNewlines (s : string) : nat :=
  match s with
  | EmptyString => O
  | String c s' => (if decide (c = newline) then 1 else 0) + countNewlines s'
  end%nat.

End strings.

(* ===================================================================== *)
(** ** The git backend: objects, trees, patches *)
(* ===================================================================== *)

(** A hash is written as its 40 hexadecimal digits; [plumbing.NewHash]
    reads that text back, so on hashes in this form it is the identity. *)
Abbreviation Hash := string (only parsing).

Module plumbing.
Definition NewHash (s : string) : Hash := s.
End plumbing.

Record Signature : Type := {
  Name : string;
  Email : string;
  When : Z              (* When.Unix(): seconds since the epoch *)
}.

(** An object of the store. A tree is kept flattened, as [tree.Files()]
    walks it: full path to file contents, one entry per path. *)
Inductive Object : Type :=
  | EncodedCommit (author committer : Signature) (message : string)
                  (treeHash : Hash) (parentHashes : list Hash)
  | EncodedTree (entries : gmap string string).

Module Commit.
Record t : Type := {
  Hash : string;
  Author : Signature;
  Committer : Signature;
  Message : string;
  TreeHash : string;
  ParentHashes : list string
}.
End Commit.

Module File.
Record t : Type := { Name : string; Contents : string }.

Definition ofEntry (e : string * string) : t :=
  {| Name := e.1; Contents := e.2 |}.

(** [f.Lines()]: the contents split on newline, without the last piece
    when it is empty. *)
Definition Lines (f : t) : list string :=
  let splits := strings.Split (Contents f) (String strings.newline "") in
  if decide (List.last splits "" = "") then removelast splits else splits.
End File.

Module Tree.
Record t : Type := { Hash : string; Entries : gmap string string }.

(** [tree.Files()], as the list [ForEach] goes through. *)
Definition Files (tree : t) : list File.t :=
  map File.ofEntry (map_to_list (Entries tree)).

(** [tree.File(path)] *)
Definition File (tree : t) (path : string) : outcome File.t :=
  match Entries tree !! path with
  | Some c => Ok {| File.Name := path; File.Contents := c |}
  | None => Err ErrFileNotFound
  end.
End Tree.

Record Repository : Type := {
  Storer : gmap string Object;
  HEAD : option string
}.

(** [r.Head()] *)
Definition Head (r : Repository) : outcome Hash :=
  match HEAD r with
  | Some h => Ok h
  | None => Err ErrReferenceNotFound
  end.

(** [object.GetCommit], behind [r.CommitObject(h)] and the parent
    iterators. *)
Definition GetCommit (s : gmap string Object) (h : Hash) : outcome Commit.t :=
  match s !! h with
  | Some (EncodedCommit a c m t ps) =>
      Ok {| Commit.Hash := h; Commit.Author := a; Commit.Committer := c;
            Commit.Message := m; Commit.TreeHash := t; Commit.ParentHashes := ps |}
  | _ => Err ErrObjectNotFound
  end.

(** [object.GetTree], behind [commit.Tree()]. *)
Definition GetTree (s : gmap string Object) (h : Hash) : outcome Tree.t :=
  match s !! h with
  | Some (EncodedTree es) => Ok {| Tree.Hash := h; Tree.Entries := es |}
  | _ => Err ErrObjectNotFound
  end.

Definition CommitObject (r : Repository) (h : Hash) : outcome Commit.t :=
  GetCommit (Storer r) h.

(** [commit.Tree()]; the commit reads the store it was loaded from. *)
Definition Commit_Tree (s : gmap string Object) (c : Commit.t) : outcome Tree.t :=
  GetTree s (Commit.TreeHash c).

(** [commit.Parent(i)] *)
Definition Commit_Parent (s : gmap string Object) (c : Commit.t) (i : nat) : outcome Commit.t :=
  match Commit.ParentHashes c !! i with
  | Some h => GetCommit s h
  | None => Err ErrParentNotFound
  end.

(** Chunk types, with the numbers the code compares them to. *)
Inductive Operation : Type := Equal | Add | Delete.

#[global] Instance Operation_eq_dec : EqDecision Operation.
Proof. solve_decision. Defined.

Definition opcode (o : Operation) : Z :=
  match o with Equal => 0 | Add => 1 | Delete => 2 end.

Record Chunk : Type := { Type_ : Operation; Content : string }.

(** A file patch: the paths of [patch.Files()] ([None] for a nil file)
    and the chunks. *)
Record FilePatch : Type := {
  From : option string;
  To : option string;
  Chunks : list Chunk
}.

Record FileStat : Type := { StatName : string; Addition : Z; Deletion : Z }.

(** What the backend gives for a patch: its file patches, [patch.Stats()]
    and [patch.String()]. The last two are the backend's own summaries and
    are taken as it returns them. *)
Record Patch : Type := {
  FilePatches : list FilePatch;
  Stats : list FileStat;
  PatchString : string
}.

(* ===================================================================== *)
(** ** [plumbing/revlist]: the objects reachable from a set of objects *)
(* ===================================================================== *)

Module revlist.

(** What visiting the object [h] asks of the store: the object is there;
    a commit's tree is a tree ([commit.Tree()]) and its parents are
    commits (the parent iterator loads each with [GetCommit]). The result
    is the list of hashes to go on with. *)
Definition expand (s : gmap string Object) (h : Hash) : outcome (list Hash) :=
  match s !! h with
  | None => Err ErrObjectNotFound
  | Some (EncodedTree _) => Ok []
  | Some (EncodedCommit _ _ _ t ps) =>
      if isOk (GetTree s t) && forallb (fun p => isOk (GetCommit s p)) ps
      then Ok (t :: ps)
      else Err ErrObjectNotFound
  end.

(** The hashes of [todo] from the first one that is not in [seen]. *)
Fixpoint skipSeen (seen : gset string) (todo : list Hash) : list Hash :=
  match todo with
  | [] => []
  | h :: rest => if decide (h ∈ seen) then skipSeen seen rest else todo
  end.

(** The traversal of [processObject]: depth first from the hashes of
    [todo], never entering an object of [seen], marking each object it
    visits. It returns the marks together with how it ended; on an error
    the marks made so far stay, as they do in the maps of the library. *)
Fixpoint walk (fuel : nat) (s : gmap string Object) (seen : gset string)
         (todo : list Hash) : gset string * outcome unit :=
  match fuel with
  | O => (seen, OutOfFuel)
  | S fuel' =>
      match skipSeen seen todo with
      | [] => (seen, Ok tt)
      | h :: rest =>
          match expand s h with
          | Ok next => walk fuel' s ({[h]} ∪ seen) (next ++ rest)
          | Err e => (seen, Err e)
          | Panic => (seen, Panic)
          | OutOfFuel => (seen, OutOfFuel)
          end
      end
  end.

(** Every visit marks an object of the store that was not marked, so one
    more than the number of objects is fuel enough. *)
Definition processObject (s : gmap string Object) (seen : gset string) (h : Hash)
  : gset string * outcome unit :=
  walk (S (size s)) s seen [h].

(** The loop of [objects] over the given hashes. *)
Fixpoint objectsLoop (s : gmap string Object) (allowMissingObjects : bool)
         (seen : gset string) (objs : list Hash) : outcome (gset string) :=
  match objs with
  | [] => Ok seen
  | h :: rest =>
      match processObject s seen h with
      | (seen', Ok _) => objectsLoop s allowMissingObjects seen' rest
      | (seen', Err ErrObjectNotFound) =>
          if allowMissingObjects
          then objectsLoop s allowMissingObjects seen' rest
          else Err ErrObjectNotFound
      | (_, Err e) => Err e
      | (_, Panic) => Panic
      | (_, OutOfFuel) => OutOfFuel
      end
  end.

(** The order in which a Go [range] goes through a map is not fixed:
    [pick n rnd l] lists [l] in the order chosen by [rnd], the [k]-th
    element first for [k = rnd mod length l], and so on with the
    quotient. Every order of [l] is [pick] of some [rnd]. *)
Fixpoint pick {A} (n : nat) (rnd : nat) (l : list A) : list A :=
  match n with
  | O => []
  | S n' =>
      let k := (rnd mod length l)%nat in
      match l !! k with
      | Some x => x :: pick n' (rnd / length l)%nat (delete k l)
      | None => []
      end
  end.

(** [hashSetToList]: the keys of the result map, in range order. *)
Definition hashSetToList (rnd : nat) (hashes : gset string) : list Hash :=
  let l := elements hashes in pick (length l) rnd l.

(** [objects]: the marks are the ignored hashes and, as the traversal
    goes, the visited ones; the result is what the traversal marked. *)
Definition objects (rnd : nat) (s : gmap string Object) (objs ignore : list Hash)
           (allowMissingObjects : bool) : outcome (list Hash) :=
  seen ← objectsLoop s allowMissingObjects (list_to_set ignore) objs;
  Ok (hashSetToList rnd (seen ∖ list_to_set ignore)).

(** [revlist.Objects(s, objs, ignore)]: all the objects reachable from
    [objs], without those reachable from [ignore]. *)
Definition Objects (rnd : nat) (s : gmap string Object) (objs ignore : list Hash)
  : outcome (list Hash) :=
  ignore' ← objects rnd s ignore [] true;
  objects rnd s objs ignore' false.

End revlist.

(* ===================================================================== *)
(** ** [sort.Slice] *)
(* ===================================================================== *)

Module sort.

(** One round of the insertion sort of package [sort]: the element [x]
    moves left past every element it is less than, and stops at the first
    it is not. [before] is the sorted part, nearest neighbour first. *)
Fixpoint insertLeft {A} (less : A → A → bool) (x : A) (before : list A) : list A :=
  match before with
  | [] => [x]
  | y :: before' =>
      if less x y then y :: insertLeft less x before' else x :: before
  end.

(** [sort.Slice(l, less)] as the insertion sort the library runs on a
    short slice; on a longer one the library may order equal elements
    otherwise, and the theorems below use of the result only that it is
    ordered and has the elements of [l]. *)
Definition Slice {A} (l : list A) (less : A → A → bool) : list A :=
  rev (fold_left (fun before x => insertLeft less x before) l []).

End sort.

(* ===================================================================== *)
(** ** Package [helper] *)
(* ===================================================================== *)

Module helper.

(** Modelled from the spec: [helper.UniqueElements] is not among the
    sources. The spec (4.6) says of it: deduplication preserves
    first-seen order. [keys] holds what was seen. *)
Fixpoint uniqueFrom (keys : gset string) (arr : list string) : list string :=
  match arr with
  | [] => []
  | entry :: rest =>
      if decide (entry ∈ keys) then uniqueFrom keys rest
      else entry :: uniqueFrom ({[entry]} ∪ keys) rest
  end.

Definition UniqueElements (arr : list string) : list string :=
  uniqueFrom ∅ arr.

End helper.

(* ===================================================================== *)
(** ** Package [gitfuncs] *)
(* ===================================================================== *)

Module gitfuncs.

Definition nl : string := String strings.newline "".

(** [FileLOCFromTree]: the callback runs on every file of the tree and
    overwrites [loc] at the file of that name. *)
Definition FileLOCFromTree (tree : Tree.t) (filePath : string) : Z :=
  fold_left
    (fun loc f =>
       if decide (File.Name f = filePath)
       then Z.of_nat (length (File.Lines f))
       else loc)
    (Tree.Files tree) 0.

(** The inner loop of the function below: [loc += 1] at each line that
    is not the empty string. *)
Definition countNonEmpty (lines : list string) (loc : Z) : Z :=
  fold_left (fun loc line => if decide (line ≠ "") then loc + 1 else loc) lines loc.

(** [FileLOCFromTreeWhitespaceExcluded] *)
Definition FileLOCFromTreeWhitespaceExcluded (tree : Tree.t) (filePath : string) : Z :=
  fold_left
    (fun loc f =>
       if decide (File.Name f = filePath)
       then countNonEmpty (File.Lines f) loc
       else loc)
    (Tree.Files tree) 0.

(** The line count of a chunk, as both functions below compute it:
    [c[len(c)-1]] panics on the empty string; after a final newline the
    last piece of the split is not counted. *)
Definition chunkLines (content : string) : outcome Z :=
  match strings.lastByte content with
  | None => Panic
  | Some c =>
      if decide (c = strings.newline)
      then Ok (Z.of_nat (length (strings.Split content nl)) - 1)
      else Ok (Z.of_nat (length (strings.Split content nl)))
  end.

(** The loop over the chunks of one file patch in [DeletedLineNumbers],
    on its two variables. *)
Fixpoint DeletedLineNumbers_chunks (chunks : list Chunk) (lineCounter : Z)
         (deletedLines : list Z) : outcome (list Z) :=
  match chunks with
  | [] => Ok deletedLines
  | chunk :: rest =>
      lineCounter1 ←
        (if decide (opcode (Type_ chunk) = 0)
         then n ← chunkLines (Content chunk); Ok (lineCounter + n)
         else Ok lineCounter);
      '(lineCounter2, deletedLines2) ←
        (if decide (opcode (Type_ chunk) = 2)
         then patchLen ← chunkLines (Content chunk);
              Ok (lineCounter1 + patchLen,
                  deletedLines ++ map (fun i => lineCounter1 + i) (seqZ 1 patchLen))
         else Ok (lineCounter1, deletedLines));
      DeletedLineNumbers_chunks rest lineCounter2 deletedLines2
  end.

(** [for i := 1; i <= patchLen; i++] of the whitespace-excluded variant,
    over the values [indices] of [i]. *)
Fixpoint deletedNonEmpty (deletedPatch : list string) (lineCounter : Z)
         (indices : list Z) (deletedLines : list Z) : outcome (list Z) :=
  match indices with
  | [] => Ok deletedLines
  | i :: indices' =>
      match deletedPatch !! Z.to_nat (i - 1) with
      | None => Panic
      | Some line =>
          deletedNonEmpty deletedPatch lineCounter indices'
            (if decide (line ≠ "") then deletedLines ++ [lineCounter + i]
             else deletedLines)
      end
  end.

Fixpoint DeletedLineNumbersWhitespaceExcluded_chunks (chunks : list Chunk)
         (lineCounter : Z) (deletedLines : list Z) : outcome (list Z) :=
  match chunks with
  | [] => Ok deletedLines
  | chunk :: rest =>
      lineCounter1 ←
        (if decide (opcode (Type_ chunk) = 0)
         then n ← chunkLines (Content chunk); Ok (lineCounter + n)
         else Ok lineCounter);
      '(lineCounter2, deletedLines2) ←
        (if decide (opcode (Type_ chunk) = 2)
         then let deletedPatch := strings.Split (Content chunk) nl in
              patchLen ← chunkLines (Content chunk);
              deletedLines' ← deletedNonEmpty deletedPatch lineCounter1
                                (seqZ 1 patchLen) deletedLines;
              Ok (lineCounter1 + patchLen, deletedLines')
         else Ok (lineCounter1, deletedLines));
      DeletedLineNumbersWhitespaceExcluded_chunks rest lineCounter2 deletedLines2
  end.

(** The key a file patch is stored under: the path of the from-file, or
    of the to-file when the from-file is nil; [toFile.Path()] on a nil
    to-file panics. *)
Definition patchKey (patch : FilePatch) : outcome string :=
  match From patch, To patch with
  | Some p, _ => Ok p
  | None, Some p => Ok p
  | None, None => Panic
  end.

(** The loop over the file patches, [perFile] being the loop over the
    chunks. *)
Fixpoint filePatchesLoop (perFile : list Chunk → Z → list Z → outcome (list Z))
         (patches : list FilePatch) (fileDeletedLinesMap : gmap string (list Z))
  : outcome (gmap string (list Z)) :=
  match patches with
  | [] => Ok fileDeletedLinesMap
  | patch :: rest =>
      deletedLines ← perFile (Chunks patch) 0 [];
      key ← patchKey patch;
      filePatchesLoop perFile rest (<[key := deletedLines]> fileDeletedLinesMap)
  end.

Section backend.

(** The diff of the backend: [parentTree.Diff(tree)] and then
    [changes.Patch()]. *)
Variable Diff : Tree.t → Tree.t → Patch.

(** The order of the map ranges of one run (see [revlist.pick]). *)
Variable rnd : nat.

(** [CommitDiff]: the patch from the parent of HEAD to HEAD, the tree
    of HEAD and the tree of its parent. *)
Definition CommitDiff (repo : Repository) : outcome (Patch * Tree.t * Tree.t) :=
  head ← CheckIfError (Head repo);
  commitObj ← CheckIfError (CommitObject repo head);
  parentCommitObj ← CheckIfError (Commit_Parent (Storer repo) commitObj 0);
  tree ← CheckIfError (Commit_Tree (Storer repo) commitObj);
  parentTree ← CheckIfError (Commit_Tree (Storer repo) parentCommitObj);
  Ok (Diff parentTree tree, tree, parentTree).

Definition DeletedLineNumbers (repo : Repository)
  : outcome (gmap string (list Z) * string) :=
  '(patch, _, parentTree) ← CommitDiff repo;
  fileDeletedLinesMap ←
    filePatchesLoop DeletedLineNumbers_chunks (FilePatches patch) ∅;
  Ok (fileDeletedLinesMap, Tree.Hash parentTree).

Definition DeletedLineNumbersWhitespaceExcluded (repo : Repository)
  : outcome (gmap string (list Z) * string) :=
  '(patch, _, parentTree) ← CommitDiff repo;
  fileDeletedLinesMap ←
    filePatchesLoop DeletedLineNumbersWhitespaceExcluded_chunks (FilePatches patch) ∅;
  Ok (fileDeletedLinesMap, Tree.Hash parentTree).

(** The loop of [RevList] over the hashes: an object that is not a
    commit is passed over. *)
Fixpoint commitsOf (r : Repository) (hashes : list Hash) : list Commit.t :=
  match hashes with
  | [] => []
  | h :: rest =>
      match CommitObject r h with
      | Ok c => c :: commitsOf r rest
      | _ => commitsOf r rest
      end
  end.

(** The comparison given to [sort.Slice]. *)
Definition later (ci cj : Commit.t) : bool :=
  bool_decide (When (Commit.Committer ci) > When (Commit.Committer cj)).

(** [RevList] *)
Definition RevList (r : Repository) (beginCommit endCommit : string)
  : outcome (list Commit.t) :=
  ref1hist ← revlist.Objects rnd (Storer r) [plumbing.NewHash endCommit] [];
  ref2hist ← revlist.Objects rnd (Storer r) [plumbing.NewHash beginCommit] ref1hist;
  let commits := commitsOf r ref2hist in
  Ok (sort.Slice commits later).

(** The loop of [GetDistinctAuthorsEMailIds] over the commits. *)
Fixpoint authorsOf (r : Repository) (commits : list Commit.t) (filePath : string)
         (authors : list string) : outcome (list string) :=
  match commits with
  | [] => Ok authors
  | commit :: rest =>
      tree ← Commit_Tree (Storer r) commit;
      match Tree.File tree filePath with
      | Ok _ => authorsOf r rest filePath (authors ++ [Email (Commit.Author commit)])
      | _ => authorsOf r rest filePath authors
      end
  end.

(** [GetDistinctAuthorsEMailIds] *)
Definition GetDistinctAuthorsEMailIds (r : Repository)
           (beginCommit endCommit filePath : string) : outcome (list string) :=
  commits ← RevList r beginCommit endCommit;
  authors ← authorsOf r commits filePath [];
  Ok (helper.UniqueElements authors).

End backend.

(** [LOCFilesFromTree]: the total line count and the names of all the files
    of the tree, in the order of [tree.Files()]. The Go function sends the
    pair, as a closure, on the channel it is given; its caller receives it
    once, so the pair is modelled as the result. *)
Definition LOCFilesFromTree (tree : Tree.t) : Z * list string :=
  fold_left
    (fun acc f => (acc.1 + Z.of_nat (length (File.Lines f)), acc.2 ++ [File.Name f]))
    (Tree.Files tree) (0, []).

(** [LOCFilesFromTreeWhitespaceExcluded] *)
Definition LOCFilesFromTreeWhitespaceExcluded (tree : Tree.t) : Z * list string :=
  fold_left
    (fun acc f => (countNonEmpty (File.Lines f) acc.1, acc.2 ++ [File.Name f]))
    (Tree.Files tree) (0, []).

End gitfuncs.

(* ===================================================================== *)
(** ** Package [metrics] *)
(* ===================================================================== *)

Module metrics.

Record DiffMetrics : Type := {
  Insertions : Z;
  Deletions : Z;
  LinesBefore : Z;
  LinesAfter : Z
}.

Record FileDiffMetrics : Type := {
  Embedded : DiffMetrics;
  File : string;
  NewFile : bool;
  DeleteFile : bool
}.

(** The loop over [diffStats]: the entry of that name sets both fields. *)
Definition statsOf (diffStats : list FileStat) (filePath : string) : Z * Z :=
  fold_left
    (fun acc value =>
       if decide (StatName value = filePath)
       then (Addition value, Deletion value)
       else acc)
    diffStats (0, 0).

(** The two flags, from the zero value [false]. *)
Definition flags (linesBefore linesAfter : Z) : bool * bool :=
  (bool_decide (linesBefore = 0 ∧ linesAfter ≠ 0),
   bool_decide (linesBefore ≠ 0 ∧ linesAfter = 0)).

(** The loop over the lines of the file's diff text. *)
Definition countMarked (lines : list string) : Z * Z :=
  fold_left
    (fun acc line =>
       let line := strings.TrimSpace line in
       let insertions :=
         if strings.HasPrefix line "+" && bool_decide (line ≠ "+")
         then acc.1 + 1 else acc.1 in
       let deletions :=
         if strings.HasPrefix line "-" && bool_decide (line ≠ "-")
         then acc.2 + 1 else acc.2 in
       (insertions, deletions))
    lines (0, 0).

(** [a[i]] on a slice: out of range is a panic. *)
Definition index {A} (a : list A) (i : nat) : outcome A :=
  match a !! i with
  | Some x => Ok x
  | None => Panic
  end.

Section backend.

Variable Diff : Tree.t → Tree.t → Patch.

(** [CalculateDiffMetricsWithWhitespace]; the deferred call only logs
    the time taken. *)
Definition CalculateDiffMetricsWithWhitespace (repo : Repository) (filePath : string)
  : outcome FileDiffMetrics :=
  '(patch, tree, parentTree) ← gitfuncs.CommitDiff Diff repo;
  let diffStats := Stats patch in
  let '(insertions, deletions) := statsOf diffStats filePath in
  let linesBefore := gitfuncs.FileLOCFromTree parentTree filePath in
  let linesAfter := gitfuncs.FileLOCFromTree tree filePath in
  let '(newFile, deleteFile) := flags linesBefore linesAfter in
  Ok {| Embedded := {| Insertions := insertions; Deletions := deletions;
                       LinesBefore := linesBefore; LinesAfter := linesAfter |};
        File := filePath; NewFile := newFile; DeleteFile := deleteFile |}.

(** [CalculateDiffMetricsWhitespaceExcluded] *)
Definition CalculateDiffMetricsWhitespaceExcluded (repo : Repository) (filePath : string)
  : outcome FileDiffMetrics :=
  '(patch, tree, parentTree) ← gitfuncs.CommitDiff Diff repo;
  let fileDiffTexts := strings.Split (PatchString patch) ("diff --git a/" +:+ filePath) in
  if decide (length fileDiffTexts < 2)%nat
  then Err (ErrorNew ("File: " +:+ filePath +:+ " not found in the given commitHash"))
  else
    fileDiffText ← index fileDiffTexts 1;
    fileDiff ← index (strings.Split fileDiffText "+++") 1;
    fileDiff ← index (strings.Split fileDiff "diff --git") 0;
    let lines := strings.Split fileDiff gitfuncs.nl in
    let '(insertions, deletions) := countMarked lines in
    let linesBefore := gitfuncs.FileLOCFromTreeWhitespaceExcluded parentTree filePath in
    let linesAfter := gitfuncs.FileLOCFromTreeWhitespaceExcluded tree filePath in
    let '(newFile, deleteFile) := flags linesBefore linesAfter in
    Ok {| Embedded := {| Insertions := insertions; Deletions := deletions;
                         LinesBefore := linesBefore; LinesAfter := linesAfter |};
          File := filePath; NewFile := newFile; DeleteFile := deleteFile |}.

Record AggrDiffMetrics : Type := {
  AggrEmbedded : DiffMetrics;
  FilesCount : Z;
  NewFiles : Z;
  DeletedFiles : Z
}.

(** The file names put in a [map[string]bool], each with [true]. *)
Definition fileSet (files : list string) : gmap string bool :=
  fold_left (fun set f => <[f := true]> set) files ∅.

(** [set[file]]: a missing key reads as the zero value [false]. *)
Definition inSet (set : gmap string bool) (file : string) : bool :=
  default false (set !! file).

(** [getDeletedFilesCount]: what it sends on its channel. *)
Definition getDeletedFilesCount (beforeFiles afterFiles : list string) : Z :=
  let afterSet := fileSet afterFiles in
  fold_left (fun count file => if negb (inSet afterSet file) then count + 1 else count)
            beforeFiles 0.

(** [getNewFilesCount]: what it sends on its channel. *)
Definition getNewFilesCount (beforeFiles afterFiles : list string) : Z :=
  let beforeSet := fileSet beforeFiles in
  fold_left (fun count file => if negb (inSet beforeSet file) then count + 1 else count)
            afterFiles 0.

(** [setFilesCounts]: the three fields it sets, [FilesCount], [NewFiles]
    and [DeletedFiles]; the two counts are computed by two goroutines and
    each is received once. *)
Definition setFilesCounts (beforeFiles afterFiles : list string) : Z * Z * Z :=
  (Z.of_nat (length afterFiles),
   getNewFilesCount beforeFiles afterFiles,
   getDeletedFilesCount beforeFiles afterFiles).

(** The loop over the stats in [AggrDiffMetricsWithWhitespace]. *)
Definition sumStats (diffStats : list FileStat) : Z * Z :=
  fold_left (fun acc value => (acc.1 + Addition value, acc.2 + Deletion value))
            diffStats (0, 0).

(** [AggrDiffMetricsWithWhitespace]; the two trees are counted by two
    goroutines whose results are received in turn. *)
Definition AggrDiffMetricsWithWhitespace (repo : Repository) : outcome AggrDiffMetrics :=
  '(patch, tree, parentTree) ← gitfuncs.CommitDiff Diff repo;
  let diffStats := Stats patch in
  let '(additions, deletions) := sumStats diffStats in
  let '(linesBefore, beforeFiles) := gitfuncs.LOCFilesFromTree parentTree in
  let '(linesAfter, afterFiles) := gitfuncs.LOCFilesFromTree tree in
  let '(filesCount, newFiles, deletedFiles) := setFilesCounts beforeFiles afterFiles in
  Ok {| AggrEmbedded := {| Insertions := additions; Deletions := deletions;
                           LinesBefore := linesBefore; LinesAfter := linesAfter |};
        FilesCount := filesCount; NewFiles := newFiles; DeletedFiles := deletedFiles |}.

(** The loop over the lines of a diff text, from counters that already
    hold a count. *)
Definition countMarkedFrom (acc : Z * Z) (lines : list string) : Z * Z :=
  fold_left
    (fun acc line =>
       let line := strings.TrimSpace line in
       let insertions :=
         if strings.HasPrefix line "+" && bool_decide (line ≠ "+")
         then acc.1 + 1 else acc.1 in
       let deletions :=
         if strings.HasPrefix line "-" && bool_decide (line ≠ "-")
         then acc.2 + 1 else acc.2 in
       (insertions, deletions))
    lines acc.

(** The loop of [AggrDiffMetricsWhitespaceExcluded] over the texts of
    index 1 and up. *)
Fixpoint aggrTextsLoop (fileDiffTexts : list string) (acc : Z * Z) : outcome (Z * Z) :=
  match fileDiffTexts with
  | [] => Ok acc
  | text :: rest =>
      fileDiff ← index (strings.Split text "+++") 1;
      fileDiff ← index (strings.Split fileDiff "diff --git") 0;
      let lines := strings.Split fileDiff gitfuncs.nl in
      aggrTextsLoop rest (countMarkedFrom acc lines)
  end.

(** [AggrDiffMetricsWhitespaceExcluded] *)
Definition AggrDiffMetricsWhitespaceExcluded (repo : Repository) : outcome AggrDiffMetrics :=
  '(patch, tree, parentTree) ← gitfuncs.CommitDiff Diff repo;
  let fileDiffTexts := strings.Split (PatchString patch) "diff --git a/" in
  '(insertions, deletions) ← aggrTextsLoop (tail fileDiffTexts) (0, 0);
  let '(linesBefore, beforeFiles) := gitfuncs.LOCFilesFromTreeWhitespaceExcluded parentTree in
  let '(linesAfter, afterFiles) := gitfuncs.LOCFilesFromTreeWhitespaceExcluded tree in
  let '(filesCount, newFiles, deletedFiles) := setFilesCounts beforeFiles afterFiles in
  Ok {| AggrEmbedded := {| Insertions := insertions; Deletions := deletions;
                           LinesBefore := linesBefore; LinesAfter := linesAfter |};
        FilesCount := filesCount; NewFiles := newFiles; DeletedFiles := deletedFiles |}.

End backend.

End metrics.

(* ===================================================================== *)
(** ** The diff chunk classifier, in the words of the specification *)
(* ===================================================================== *)

Module spec.

(** The lines of a chunk: the content split on newline, the final empty
    piece dropped after a trailing newline; an empty content has no
    line. *)
Definition lineCount (content : string) : Z :=
  if decide (content = "") then 0
  else if decide (strings.lastByte content = Some strings.newline)
       then Z.of_nat (length (strings.Split content gitfuncs.nl)) - 1
       else Z.of_nat (length (strings.Split content gitfuncs.nl)).

(** A running counter over the before file: an Equal chunk advances it
    by its line count; a Delete chunk records [counter + i] for each of
    its lines [i], counted from 1, and then advances it; an Insert chunk
    leaves it. *)
Fixpoint deletedLines (chunks : list Chunk) (counter : Z) : list Z :=
  match chunks with
  | [] => []
  | chunk :: rest =>
      match Type_ chunk with
      | Equal => deletedLines rest (counter + lineCount (Content chunk))
      | Delete =>
          map (fun i => counter + i) (seqZ 1 (lineCount (Content chunk)))
            ++ deletedLines rest (counter + lineCount (Content chunk))
      | Add => deletedLines rest counter
      end
  end.

End spec.

(** The texts of the Equal and Delete chunks, in order: the pieces of the
    before file. *)
Definition beforeTexts (chunks : list Chunk) : list string :=
  map Content (filter (fun c => Type_ c ≠ Add) chunks).

Definition beforeFile (chunks : list Chunk) : string :=
  fold_right String.append "" (beforeTexts chunks).

(** The pieces are whole lines: none is empty, and each one that is
    followed by another ends with a newline. *)
Fixpoint wholeLines (texts : list string) : Prop :=
  match texts with
  | [] => True
  | [c] => c ≠ ""
  | c :: rest => strings.lastByte c = Some strings.newline ∧ wholeLines rest
  end.

(** The pieces are runs of lines, as the chunks of a patch made line by
    line are: each one that is followed by another ends with a newline. *)
Fixpoint lineRuns (texts : list string) : Prop :=
  match texts with
  | [] => True
  | [c] => True
  | c :: rest => strings.lastByte c = Some strings.newline ∧ lineRuns rest
  end.

(** How two outcomes compare: both results, related by [R], or the same
    failure. *)
Definition outcome_rel {A B} (R : A → B → Prop) (x : outcome A) (y : outcome B) : Prop :=
  match x, y with
  | Ok a, Ok b => R a b
  | Err e, Err e' => e = e'
  | Panic, Panic => True
  | OutOfFuel, OutOfFuel => True
  | _, _ => False
  end.

(** The deleted lines of the whitespace-excluded variant are among those of
    the other, file by file and in the same order. *)
Definition deleted_within (x y : gmap string (list Z) * string) : Prop :=
  x.2 = y.2 ∧ ∀ p, option_Forall2 (fun l l' => sublist l' l) (x.1 !! p) (y.1 !! p).

(* ===================================================================== *)
(** ** Reachability in the object store *)
(* ===================================================================== *)

(** The objects an object points to: a commit points to its tree and to
    its parents. *)
Definition children (s : gmap string Object) (h : Hash) : list Hash :=
  match s !! h with
  | Some (EncodedCommit _ _ _ t ps) => t :: ps
  | _ => []
  end.

(** [reachable s a b]: [b] is obtained from [a] by following the pointers
    of the store, in any number of steps. *)
Definition reachable (s : gmap string Object) : relation string :=
  rtc (fun a b => b ∈ children s a).

(** A set of hashes that has, with each object, the objects it points to. *)
Definition closed (s : gmap string Object) (X : gset string) : Prop :=
  ∀ h k, h ∈ X → k ∈ children s h → k ∈ X.

(** Every object reachable from [h] can be visited: it is in the store, a
    tree named by a commit is a tree, a parent is a commit. *)
Definition traversable (s : gmap string Object) (h : Hash) : Prop :=
  ∀ x, reachable s h x → isOk (revlist.expand s x) = true.

(** The tree of the commit has a file at that path. *)
Definition containsFile (s : gmap string Object) (filePath : string) (c : Commit.t) : bool :=
  match Commit_Tree s c with
  | Ok tree => isOk (Tree.File tree filePath)
  | _ => false
  end.

(** The committer time [RevList] sorts by. *)
Definition commitTime (c : Commit.t) : Z := When (Commit.Committer c).

(** A step of a loop over the files of a tree that acts, by [g], on the
    file of the given name only. *)
Definition atName (g : File.t → Z → Z) (p : string) (loc : Z) (f : File.t) : Z :=
  if decide (File.Name f = p) then g f loc else loc.

(** The comparison "has the greater key". *)
Definition greaterKey {A} (key : A → Z) (x y : A) : bool :=
  bool_decide (key x > key y).

(* ===================================================================== *)
(** ** Small repositories and patches to run the functions on *)
(* ===================================================================== *)

Module example.

Definition nl : string := gitfuncs.nl.

Definition sig (email : string) (when : Z) : Signature :=
  {| Name := email; Email := email; When := when |}.

(** Two commits: [c1] adds [a.txt], [c2] edits it and adds [b.txt]. *)
Definition a1 : string := "x" +:+ nl +:+ "y" +:+ nl.
Definition a2 : string := "x" +:+ nl +:+ "z" +:+ nl +:+ "  " +:+ nl.

Definition store : gmap string Object :=
  list_to_map
    [ ("c2", EncodedCommit (sig "bo@x" 20) (sig "bo@x" 20) "edit" "t2" ["c1"]);
      ("c1", EncodedCommit (sig "al@x" 10) (sig "al@x" 10) "add" "t1" ["c0"]);
      ("c0", EncodedCommit (sig "al@x" 5) (sig "al@x" 5) "init" "t0" []);
      ("t2", EncodedTree (list_to_map [("a.txt", a2); ("b.txt", "")]));
      ("t1", EncodedTree (list_to_map [("a.txt", a1)]));
      ("t0", EncodedTree ∅) ].

Definition repo : Repository := {| Storer := store; HEAD := Some "c2" |}.

Definition c2 : Commit.t :=
  {| Commit.Hash := "c2"; Commit.Author := sig "bo@x" 20; Commit.Committer := sig "bo@x" 20;
     Commit.Message := "edit"; Commit.TreeHash := "t2"; Commit.ParentHashes := ["c1"] |}.

Definition c1 : Commit.t :=
  {| Commit.Hash := "c1"; Commit.Author := sig "al@x" 10; Commit.Committer := sig "al@x" 10;
     Commit.Message := "add"; Commit.TreeHash := "t1"; Commit.ParentHashes := ["c0"] |}.

(** The same history with [c1] and [c2] committed in the same second. *)
Definition tieStore : gmap string Object :=
  <[ "c1" := EncodedCommit (sig "al@x" 10) (sig "al@x" 20) "add" "t1" ["c0"] ]> store.

Definition tieRepo : Repository := {| Storer := tieStore; HEAD := Some "c2" |}.

(** The patch from [c1] to [c2], as the backend gives it; the stats leave
    out the file patch without chunks of the empty new file. *)
Definition patchText : string :=
  "diff --git a/a.txt b/a.txt" +:+ nl +:+
  "index 1a2b3c4..5d6e7f8 100644" +:+ nl +:+
  "--- a/a.txt" +:+ nl +:+
  "+++ b/a.txt" +:+ nl +:+
  "@@ -1,2 +1,3 @@" +:+ nl +:+
  " x" +:+ nl +:+
  "-y" +:+ nl +:+
  "+z" +:+ nl +:+
  "+  " +:+ nl +:+
  "diff --git a/b.txt b/b.txt" +:+ nl +:+
  "new file mode 100644" +:+ nl +:+
  "index 0000000..e69de29" +:+ nl +:+
  "--- /dev/null" +:+ nl +:+
  "+++ b/b.txt" +:+ nl.

Definition patch : Patch :=
  {| FilePatches :=
       [ {| From := Some "a.txt"; To := Some "a.txt";
            Chunks := [ {| Type_ := Equal; Content := "x" +:+ nl |};
                        {| Type_ := Delete; Content := "y" +:+ nl |};
                        {| Type_ := Add; Content := "z" +:+ nl +:+ "  " +:+ nl |} ] |};
         {| From := None; To := Some "b.txt"; Chunks := [] |} ];
     Stats := [ {| StatName := "a.txt"; Addition := 2; Deletion := 1 |} ];
     PatchString := patchText |}.

Definition Diff (parentTree tree : Tree.t) : Patch := patch.

(** A file patch with whole lines, the last one without a newline. *)
Definition wholeChunks : list Chunk :=
  [ {| Type_ := Equal; Content := "a" +:+ nl +:+ "b" +:+ nl |};
    {| Type_ := Delete; Content := "c" +:+ nl +:+ nl |};
    {| Type_ := Add; Content := "C" +:+ nl |};
    {| Type_ := Equal; Content := "d" +:+ nl |};
    {| Type_ := Delete; Content := "e" |} ].

(** A patch with an Equal chunk of empty content. *)
Definition emptyChunkPatch : Patch :=
  {| FilePatches :=
       [ {| From := Some "a.txt"; To := Some "a.txt";
            Chunks := [ {| Type_ := Equal; Content := "" |} ] |} ];
     Stats := [];
     PatchString := "" |}.

(** A tree whose file has a line of two spaces, and a Delete chunk with
    such a line. *)
Definition blankTree : Tree.t :=
  {| Tree.Hash := "t";
     Tree.Entries := {[ "a.txt" := "x" +:+ nl +:+ "  " +:+ nl +:+ nl +:+ "y" +:+ nl ]} |}.

Definition blankChunks : list Chunk :=
  [ {| Type_ := Delete; Content := "x" +:+ nl +:+ "  " +:+ nl +:+ nl +:+ "y" +:+ nl |} ].

(** The trees of [c1] and [c2], as [commit.Tree()] gives them. *)
Definition tree1 : Tree.t :=
  {| Tree.Hash := "t1"; Tree.Entries := list_to_map [("a.txt", a1)] |}.
Definition tree2 : Tree.t :=
  {| Tree.Hash := "t2"; Tree.Entries := list_to_map [("a.txt", a2); ("b.txt", "")] |}.

(** A root commit as HEAD. *)
Definition rootRepo : Repository := {| Storer := store; HEAD := Some "c0" |}.

(** File names before and after a commit. *)
Definition namesBefore : list string := ["a.txt"; "old.txt"; "lib/x.go"].
Definition namesAfter : list string := ["a.txt"; "lib/x.go"; "new.txt"; "lib/y.go"].

End example.

(* ===================================================================== *)
(** ** Notions for the properties of the aggregator *)
(* ===================================================================== *)

(** The sum of a list of integers. *)
Definition sumZ (l : list Z) : Z := foldr Z.add 0 l.

(** [sep] occurs in [s]. *)
Definition occursIn (sep s : string) : Prop := ∃ a b, s = a +:+ sep +:+ b.

(** The tree has, at the path, a file that is not empty. *)
Definition hasContent (tree : Tree.t) (path : string) : Prop :=
  ∃ c, Tree.Entries tree !! path = Some c ∧ c ≠ "".

(* ===================================================================== *)
(** * Properties *)
(* ===================================================================== *)

(** ** The string functions on small inputs *)

Example Split_two_lines :
  strings.Split ("a" +:+ gitfuncs.nl +:+ "b" +:+ gitfuncs.nl) gitfuncs.nl = ["a"; "b"; ""].
Proof. reflexivity. Qed.

Example Split_marker : strings.Split "x+++y+++z" "+++" = ["x"; "y"; "z"].
Proof. reflexivity. Qed.

Example Split_no_marker : strings.Split "xyz" "+++" = ["xyz"].
Proof. reflexivity. Qed.

Example TrimSpace_both_ends :
  strings.TrimSpace (String " " (String "009" "+ x ") +:+ gitfuncs.nl) = "+ x".
Proof. reflexivity. Qed.

Example TrimSpace_blank : strings.TrimSpace (String "009" "   ") = "".
Proof. reflexivity. Qed.

(** ** Lines of a text *)

Arguments strings.Split : simpl never.

Section lines.

Import strings.

Lemma Split_nl_empty : Split "" gitfuncs.nl = [""].
Proof. reflexivity. Qed.

Lemma Split_nl_newline s :
  Split (String newline s) gitfuncs.nl = "" :: Split s gitfuncs.nl.
Proof. reflexivity. Qed.

Lemma Split_nl_other c s :
  c ≠ newline →
  Split (String c s) gitfuncs.nl =
    match Split s gitfuncs.nl with
    | p :: ps => String c p :: ps
    | [] => [String c ""]
    end.
Proof.
  intros Hc. unfold Split, gitfuncs.nl. simpl.
  destruct (decide (c = newline)); [done|reflexivity].
Qed.

Lemma length_Split_nl s :
  length (Split s gitfuncs.nl) = S (countNewlines s).
Proof.
  induction s as [|c s IH]; [reflexivity|].
  simpl countNewlines. destruct (decide (c = newline)) as [->|Hc].
  - rewrite Split_nl_newline. simpl. by rewrite IH.
  - rewrite Split_nl_other by done.
    destruct (Split s gitfuncs.nl); simpl in *; lia.
Qed.

Lemma countNewlines_app a b :
  countNewlines (a +:+ b) = (countNewlines a + countNewlines b)%nat.
Proof. induction a as [|c a IH]; simpl; [done|]. rewrite IH. lia. Qed.

Lemma lastByte_app a b : b ≠ "" → lastByte (a +:+ b) = lastByte b.
Proof.
  intros Hb. induction a as [|c a IH]; [done|].
  simpl. rewrite IH. destruct (a +:+ b) eqn:E; [|done].
  destruct a, b; simplify_eq/=.
Qed.

Lemma lastByte_None s : lastByte s = None ↔ s = "".
Proof.
  induction s as [|c s IH]; [done|]. simpl.
  destruct s; [done|]. split; [|done]. intros H. apply IH in H. done.
Qed.

Lemma lastByte_cons c s : s ≠ "" → lastByte (String c s) = lastByte s.
Proof. by destruct s. Qed.

Lemma lastByte_newline_count s :
  lastByte s = Some newline → (0 < countNewlines s)%nat.
Proof.
  induction s as [|c s IH]; [done|].
  destruct s as [|d s].
  - simpl. intros [= ->]. rewrite decide_True by done. lia.
  - rewrite lastByte_cons by done. intros H%IH. simpl in *. lia.
Qed.

(** The last piece of the split is empty exactly after a final newline,
    and for the empty text. *)
Lemma last_Split_nl s :
  List.last (Split s gitfuncs.nl) "" = "" ↔ s = "" ∨ lastByte s = Some newline.
Proof.
  induction s as [|c s IH]; [by split; [left|]|].
  pose proof (length_Split_nl s) as Hlen.
  destruct (decide (c = newline)) as [->|Hc].
  - rewrite Split_nl_newline.
    destruct (Split s gitfuncs.nl) as [|p ps]; [done|].
    change (List.last ("" :: p :: ps) "") with (List.last (p :: ps) "").
    rewrite IH. destruct s as [|d s]; [by split; [right|left]|].
    rewrite (lastByte_cons newline (String d s)) by done.
    split; (intros [?|?]; [done|by right]).
  - rewrite Split_nl_other by done.
    destruct (Split s gitfuncs.nl) as [|p ps]; [done|].
    destruct ps as [|q ps].
    + simpl in Hlen. split; [done|]. intros [?|H]; [done|].
      destruct s as [|d s]; [by simplify_eq/=|].
      rewrite (lastByte_cons c (String d s)) in H by done.
      apply lastByte_newline_count in H. lia.
    + change (List.last (String c p :: q :: ps) "") with (List.last (q :: ps) "").
      change (List.last (p :: q :: ps) "") with (List.last (q :: ps) "") in IH.
      rewrite IH. destruct s as [|d s]; [done|].
      rewrite (lastByte_cons c (String d s)) by done.
      split; (intros [?|?]; [done|by right]).
Qed.

(** The number of lines of a text, as [File.Lines] counts them. *)
Lemma length_Lines name s :
  length (File.Lines {| File.Name := name; File.Contents := s |}) =
    if decide (s = "" ∨ lastByte s = Some newline)
    then countNewlines s else S (countNewlines s).
Proof.
  unfold File.Lines. cbn [File.Contents].
  change (String newline "") with gitfuncs.nl.
  pose proof (length_Split_nl s) as Hlen.
  pose proof (last_Split_nl s) as Hlast.
  destruct (decide (List.last _ _ = _)) as [E|E];
    destruct (decide (s = "" ∨ _)) as [F|F]; try tauto.
  rewrite removelast_firstn_len, length_take. lia.
Qed.

(** On a text that is not empty, the line count of a chunk is the line
    count of the file with that text. *)
Lemma chunkLines_Lines name s :
  s ≠ "" →
  gitfuncs.chunkLines s =
    Ok (Z.of_nat (length (File.Lines {| File.Name := name; File.Contents := s |}))).
Proof.
  intros Hs. unfold gitfuncs.chunkLines. rewrite length_Lines, length_Split_nl.
  destruct (lastByte s) as [c|] eqn:E; [|by apply lastByte_None in E].
  destruct (decide (c = newline)) as [->|Hc].
  - rewrite decide_True by auto. f_equal. lia.
  - rewrite decide_False; [done|]. intros [?|?]; simplify_eq.
Qed.

Lemma chunkLines_empty : gitfuncs.chunkLines "" = Panic.
Proof. reflexivity. Qed.

Lemma chunkLines_Ok s n : gitfuncs.chunkLines s = Ok n → s ≠ "" ∧ 0 ≤ n.
Proof.
  intros H. destruct (decide (s = "")) as [->|Hs]; [done|].
  rewrite (chunkLines_Lines "" s Hs) in H. simplify_eq. split; [done|lia].
Qed.

End lines.

(** ** Line counts of a file of a tree *)

Section loc.

Variable g : File.t → Z → Z.
Variable p : string.

Lemma fold_name_absent (l : list (string * string)) acc :
  p ∉ l.*1 → fold_left (atName g p) (map File.ofEntry l) acc = acc.
Proof.
  revert acc. induction l as [|[q c] l IH]; intros acc Hp; [done|].
  rewrite fmap_cons, not_elem_of_cons in Hp. destruct Hp as [Hq Hp].
  simpl. unfold atName at 2. simpl. rewrite decide_False by done. by apply IH.
Qed.

Lemma fold_name_present (l : list (string * string)) c acc :
  NoDup l.*1 → (p, c) ∈ l →
  fold_left (atName g p) (map File.ofEntry l) acc = g {| File.Name := p; File.Contents := c |} acc.
Proof.
  revert acc. induction l as [|[q d] l IH]; intros acc Hnd Hin.
  { by apply elem_of_nil in Hin. }
  rewrite fmap_cons in Hnd. apply NoDup_cons in Hnd as [Hq Hnd].
  simpl. unfold atName at 2. simpl.
  apply elem_of_cons in Hin as [[= <- <-]|Hin].
  - rewrite decide_True by done. by apply fold_name_absent.
  - rewrite decide_False; [by apply IH|].
    intros ->. apply Hq. apply list_elem_of_fmap. by exists (p, c).
Qed.

Lemma fold_files_lookup (tree : Tree.t) :
  fold_left (atName g p) (Tree.Files tree) 0 =
    match Tree.Entries tree !! p with
    | Some c => g {| File.Name := p; File.Contents := c |} 0
    | None => 0
    end.
Proof.
  unfold Tree.Files.
  destruct (Tree.Entries tree !! p) as [c|] eqn:E.
  - apply fold_name_present; [apply NoDup_fst_map_to_list|].
    by apply elem_of_map_to_list.
  - apply fold_name_absent. intros ([q c] & -> & Hin)%list_elem_of_fmap.
    apply elem_of_map_to_list in Hin. simpl in E. congruence.
Qed.

End loc.

(** [FileLOCFromTree] is the number of lines of the file at that path, and
    0 when the tree has no such file. *)
Lemma FileLOCFromTree_lookup tree filePath :
  gitfuncs.FileLOCFromTree tree filePath =
    match Tree.Entries tree !! filePath with
    | Some c =>
        Z.of_nat (length (File.Lines {| File.Name := filePath; File.Contents := c |}))
    | None => 0
    end.
Proof.
  apply (fold_files_lookup (fun f _ => Z.of_nat (length (File.Lines f)))).
Qed.

Lemma FileLOCFromTreeWhitespaceExcluded_lookup tree filePath :
  gitfuncs.FileLOCFromTreeWhitespaceExcluded tree filePath =
    match Tree.Entries tree !! filePath with
    | Some c =>
        gitfuncs.countNonEmpty
          (File.Lines {| File.Name := filePath; File.Contents := c |}) 0
    | None => 0
    end.
Proof.
  apply (fold_files_lookup (fun f loc => gitfuncs.countNonEmpty (File.Lines f) loc)).
Qed.

Lemma countNonEmpty_bounds lines loc :
  loc ≤ gitfuncs.countNonEmpty lines loc ≤ loc + Z.of_nat (length lines).
Proof.
  unfold gitfuncs.countNonEmpty. revert loc.
  induction lines as [|line lines IH]; intros loc; simpl; [lia|].
  destruct (decide (line ≠ "")).
  - specialize (IH (loc + 1)). lia.
  - specialize (IH loc). lia.
Qed.

Lemma FileLOCFromTree_nonneg tree filePath :
  0 ≤ gitfuncs.FileLOCFromTree tree filePath.
Proof. rewrite FileLOCFromTree_lookup. destruct (_ !! _); lia. Qed.

Lemma FileLOCFromTreeWhitespaceExcluded_bounds tree filePath :
  0 ≤ gitfuncs.FileLOCFromTreeWhitespaceExcluded tree filePath
    ≤ gitfuncs.FileLOCFromTree tree filePath.
Proof.
  rewrite FileLOCFromTree_lookup, FileLOCFromTreeWhitespaceExcluded_lookup.
  destruct (_ !! _) as [c|]; [|lia].
  pose proof (countNonEmpty_bounds
    (File.Lines {| File.Name := filePath; File.Contents := c |}) 0). lia.
Qed.

(** ** Deleted line numbers of a file patch *)

Section chunks.

Import strings.

Lemma spec_lineCount_nonneg s : 0 ≤ spec.lineCount s.
Proof.
  unfold spec.lineCount. rewrite length_Split_nl.
  repeat case_decide; lia.
Qed.

Lemma spec_lineCount_Lines name s :
  spec.lineCount s =
    Z.of_nat (length (File.Lines {| File.Name := name; File.Contents := s |})).
Proof.
  unfold spec.lineCount. rewrite length_Lines, length_Split_nl.
  destruct (decide (s = "")) as [->|Hs]; [done|].
  destruct (decide (lastByte s = _)) as [E|E].
  - rewrite decide_True by auto. lia.
  - rewrite decide_False; [done|]. by intros [?|?].
Qed.

Lemma chunkLines_spec s :
  s ≠ "" → gitfuncs.chunkLines s = Ok (spec.lineCount s).
Proof.
  intros Hs. by rewrite (chunkLines_Lines "" s Hs), (spec_lineCount_Lines "").
Qed.

Lemma append_empty_r s : s +:+ "" = s.
Proof.
  induction s as [|c s IH]; [done|].
  change (String c s +:+ "") with (String c (s +:+ "")). by rewrite IH.
Qed.

(** After a text that ends with a newline the count starts afresh. *)
Lemma spec_lineCount_app a b :
  lastByte a = Some newline →
  spec.lineCount (a +:+ b) = spec.lineCount a + spec.lineCount b.
Proof.
  intros Ha. rewrite !(spec_lineCount_Lines ""), !length_Lines.
  assert (a ≠ "") as Hne by (by intros ->).
  destruct (decide (b = "")) as [->|Hb].
  { rewrite append_empty_r. rewrite (decide_True (P := "" = "" ∨ _)) by auto. simpl. lia. }
  rewrite (decide_True (P := a = "" ∨ _)) by auto.
  rewrite lastByte_app by done. rewrite countNewlines_app.
  assert (a +:+ b ≠ "") as Hab by (by destruct a).
  destruct (decide (lastByte b = Some newline)) as [E|E].
  - rewrite !decide_True by auto. lia.
  - rewrite !decide_False; [lia|by intros [?|?]..].
Qed.

Lemma wholeLines_cons c rest :
  wholeLines (c :: rest) → c ≠ "" ∧ wholeLines rest.
Proof.
  destruct rest as [|d rest]; simpl; [done|].
  intros [Hc ?]. split; [by intros ->|done].
Qed.

(** For whole lines, the counts of the pieces add up to the count of the
    file they make. *)
Lemma wholeLines_total texts :
  wholeLines texts →
  foldr (fun t n => spec.lineCount t + n) 0 texts =
    spec.lineCount (fold_right String.append "" texts).
Proof.
  induction texts as [|c rest IH]; [done|].
  destruct rest as [|d rest].
  - intros _. simpl. rewrite append_empty_r. lia.
  - intros [Hc Hrest]. cbn [foldr fold_right].
    rewrite spec_lineCount_app by done. f_equal. by apply IH.
Qed.

(** The loop is the classifier of the specification, from any state,
    when no Equal or Delete chunk is empty. *)
Lemma DeletedLineNumbers_chunks_spec chunks lineCounter deletedLines :
  Forall (fun t => t ≠ "") (beforeTexts chunks) →
  gitfuncs.DeletedLineNumbers_chunks chunks lineCounter deletedLines =
    Ok (deletedLines ++ spec.deletedLines chunks lineCounter).
Proof.
  revert lineCounter deletedLines.
  induction chunks as [|[ty c] chunks IH]; intros lc dl Hne.
  { simpl. by rewrite app_nil_r. }
  unfold beforeTexts in Hne. rewrite filter_cons in Hne.
  destruct ty; simpl in Hne |- *.
  - apply Forall_cons in Hne as [Hc Hne].
    rewrite chunkLines_spec by done. simpl. by apply IH.
  - by apply IH.
  - apply Forall_cons in Hne as [Hc Hne].
    rewrite chunkLines_spec by done. simpl.
    rewrite IH by done. by rewrite <-app_assoc.
Qed.

Lemma lines_total_nonneg texts :
  0 ≤ foldr (fun t n => spec.lineCount t + n) 0 texts.
Proof.
  induction texts as [|t texts IH]; simpl; [done|].
  pose proof (spec_lineCount_nonneg t). lia.
Qed.

Lemma StronglySorted_shift_seqZ counter m len :
  StronglySorted Z.lt (map (fun i => counter + i) (seqZ m len)).
Proof.
  unfold seqZ. generalize (Z.to_nat len) as k. generalize 0%nat as j.
  intros j k. revert j. induction k as [|k IH]; intros j; [constructor|].
  simpl. constructor; [apply IH|].
  apply Forall_forall.
  intros x (y & -> & (i & -> & Hi)%list_elem_of_fmap)%list_elem_of_fmap.
  apply elem_of_seq in Hi. lia.
Qed.

(** The recorded numbers lie above the counter, within the lines of the
    Equal and Delete chunks, and go up. *)
Lemma spec_deletedLines_sorted chunks counter :
  StronglySorted Z.lt (spec.deletedLines chunks counter) ∧
  ∀ n, n ∈ spec.deletedLines chunks counter →
       counter < n ≤ counter + foldr (fun t n => spec.lineCount t + n) 0 (beforeTexts chunks).
Proof.
  revert counter. induction chunks as [|[ty c] chunks IH]; intros counter.
  { split; [constructor|]. intros n Hn. by apply elem_of_nil in Hn. }
  pose proof (spec_lineCount_nonneg c) as Hc.
  pose proof (lines_total_nonneg (beforeTexts chunks)) as Ht.
  unfold beforeTexts in Ht |- *. rewrite filter_cons.
  destruct ty; simpl.
  - destruct (IH (counter + spec.lineCount c)) as [Hs Hb].
    split; [done|]. intros n Hn%Hb. unfold beforeTexts in Hn. lia.
  - destruct (IH counter) as [Hs Hb]. done.
  - destruct (IH (counter + spec.lineCount c)) as [Hs Hb].
    assert (∀ n, n ∈ map (fun i => counter + i) (seqZ 1 (spec.lineCount c)) →
                 counter < n ≤ counter + spec.lineCount c) as Hseg.
    { intros n (i & -> & Hi)%list_elem_of_fmap. apply elem_of_seqZ in Hi. lia. }
    split.
    + apply StronglySorted_app_2; [|apply StronglySorted_shift_seqZ|done].
      intros x y Hx%Hseg Hy%Hb. lia.
    + intros n [Hn%Hseg|Hn%Hb]%elem_of_app; unfold beforeTexts in *; lia.
Qed.

End chunks.

(** ** The claims on the diff chunk classifier *)

Lemma wholeLines_nonempty texts : wholeLines texts → Forall (fun t => t ≠ "") texts.
Proof.
  induction texts as [|c rest IH]; [constructor|].
  intros [Hc Hrest]%wholeLines_cons. constructor; auto.
Qed.

Lemma lineRuns_wholeLines texts :
  lineRuns texts → "" ∉ texts → wholeLines texts.
Proof.
  induction texts as [|c rest IH]; [done|].
  intros Hruns Hno. destruct rest as [|d rest].
  - simpl. intros ->. apply Hno. by left.
  - destruct Hruns as [Hc Hrest]. split; [done|].
    apply IH; [done|]. intros Hin. apply Hno. by right.
Qed.

(** An Equal or Delete chunk of empty content stops the loop, wherever it
    stands: the chunks before it do not fail otherwise. *)
Lemma DeletedLineNumbers_chunks_empty chunks lineCounter deletedLines :
  "" ∈ beforeTexts chunks →
  gitfuncs.DeletedLineNumbers_chunks chunks lineCounter deletedLines = Panic.
Proof.
  revert lineCounter deletedLines.
  induction chunks as [|[ty c] chunks IH]; intros lc dl Hin.
  { by apply elem_of_nil in Hin. }
  unfold beforeTexts in Hin. rewrite filter_cons in Hin.
  destruct ty; simpl in Hin |- *.
  - destruct (decide (c = "")) as [->|Hc]; [done|].
    rewrite chunkLines_spec by done.
    apply elem_of_cons in Hin as [<-|Hin]; [done|]. simpl. by apply IH.
  - by apply IH.
  - destruct (decide (c = "")) as [->|Hc]; [done|].
    rewrite chunkLines_spec by done.
    apply elem_of_cons in Hin as [<-|Hin]; [done|]. simpl. by apply IH.
Qed.

(** C5. For a file patch whose Equal and Delete chunks partition the before
    file line by line (each of them that is followed by another ends with
    a newline), the loop of [DeletedLineNumbers] returns exactly when none
    of these chunks is empty; the numbers it returns are the [counter + i]
    of the specification's classifier, they go up strictly, within a
    Delete chunk and from one to the next, and none exceeds the line count
    of the before file. *)
Theorem DeletedLineNumbers_chunks_whole_lines (chunks : list Chunk) :
  lineRuns (beforeTexts chunks) →
  (isOk (gitfuncs.DeletedLineNumbers_chunks chunks 0 []) = true ↔
   "" ∉ beforeTexts chunks) ∧
  ∀ deleted,
    gitfuncs.DeletedLineNumbers_chunks chunks 0 [] = Ok deleted →
    deleted = spec.deletedLines chunks 0 ∧
    StronglySorted Z.lt deleted ∧
    ∀ parentTree path,
      Tree.Entries parentTree !! path = Some (beforeFile chunks) →
      ∀ n, n ∈ deleted → 1 ≤ n ≤ gitfuncs.FileLOCFromTree parentTree path.
Proof.
  intros Hruns.
  assert ("" ∉ beforeTexts chunks →
          gitfuncs.DeletedLineNumbers_chunks chunks 0 [] = Ok (spec.deletedLines chunks 0))
    as Hreturns.
  { intros Hno. rewrite DeletedLineNumbers_chunks_spec; [done|].
    by apply wholeLines_nonempty, lineRuns_wholeLines. }
  assert (isOk (gitfuncs.DeletedLineNumbers_chunks chunks 0 []) = true →
          "" ∉ beforeTexts chunks) as Hnonempty.
  { intros Hok Hin. by rewrite (DeletedLineNumbers_chunks_empty _ _ _ Hin) in Hok. }
  split.
  { split; [done|]. intros Hno. by rewrite Hreturns. }
  intros deleted Hdeleted.
  assert ("" ∉ beforeTexts chunks) as Hno by (apply Hnonempty; by rewrite Hdeleted).
  rewrite (Hreturns Hno) in Hdeleted. injection Hdeleted as <-.
  destruct (spec_deletedLines_sorted chunks 0) as [Hsorted Hbound].
  split; [done|]. split; [done|].
  intros parentTree path Hfile n Hn%Hbound.
  rewrite FileLOCFromTree_lookup, Hfile.
  rewrite <-(spec_lineCount_Lines path). unfold beforeFile.
  rewrite <-wholeLines_total by by apply lineRuns_wholeLines. lia.
Qed.

Lemma DeletedLineNumbers_chunks_whole_lines_witness :
  (isOk (gitfuncs.DeletedLineNumbers_chunks example.wholeChunks 0 []) = true ↔
   "" ∉ beforeTexts example.wholeChunks) ∧
  ∀ deleted,
    gitfuncs.DeletedLineNumbers_chunks example.wholeChunks 0 [] = Ok deleted →
    deleted = spec.deletedLines example.wholeChunks 0 ∧
    StronglySorted Z.lt deleted ∧
    ∀ parentTree path,
      Tree.Entries parentTree !! path = Some (beforeFile example.wholeChunks) →
      ∀ n, n ∈ deleted → 1 ≤ n ≤ gitfuncs.FileLOCFromTree parentTree path.
Proof.
  apply (DeletedLineNumbers_chunks_whole_lines example.wholeChunks).
  vm_compute. repeat split.
Defined.

(** ** Whitespace excluded against whitespace included *)

Lemma chunkLines_cases s :
  (s = "" ∧ gitfuncs.chunkLines s = Panic) ∨
  (∃ n, gitfuncs.chunkLines s = Ok n ∧
        0 ≤ n ≤ Z.of_nat (length (strings.Split s gitfuncs.nl))).
Proof.
  destruct (decide (s = "")) as [->|Hs]; [by left|right].
  unfold gitfuncs.chunkLines.
  destruct (strings.lastByte s) as [c|] eqn:E; [|by apply lastByte_None in E].
  rewrite length_Split_nl. destruct (decide (c = strings.newline)); eexists; split; try done; lia.
Qed.

(** The inner loop never leaves the split, and records some of the numbers
    [lineCounter + i], in order. *)
Lemma deletedNonEmpty_sublist deletedPatch lineCounter indices deletedLines :
  (∀ i, i ∈ indices → 1 ≤ i ≤ Z.of_nat (length deletedPatch)) →
  ∃ sub,
    gitfuncs.deletedNonEmpty deletedPatch lineCounter indices deletedLines
      = Ok (deletedLines ++ sub) ∧
    sublist sub (map (fun i => lineCounter + i) indices).
Proof.
  revert deletedLines. induction indices as [|i indices IH]; intros dl Hin.
  { exists []. by rewrite app_nil_r. }
  assert (1 ≤ i ≤ Z.of_nat (length deletedPatch)) as Hi
    by (apply Hin; by left).
  destruct (lookup_lt_is_Some_2 deletedPatch (Z.to_nat (i - 1))) as [line Hline]; [lia|].
  simpl. rewrite Hline.
  destruct (IH (if decide (line ≠ "") then dl ++ [lineCounter + i] else dl))
    as (sub & Heq & Hsub); [intros j Hj; apply Hin; by right|].
  rewrite Heq. destruct (decide (line ≠ "")).
  - exists ((lineCounter + i) :: sub). rewrite <-app_assoc. split; [done|].
    by apply sublist_skip.
  - exists sub. split; [done|]. by apply sublist_cons.
Qed.

Lemma chunks_loops_related chunks lineCounter deletedLines deletedLines' :
  sublist deletedLines' deletedLines →
  outcome_rel (fun l l' => sublist l' l)
    (gitfuncs.DeletedLineNumbers_chunks chunks lineCounter deletedLines)
    (gitfuncs.DeletedLineNumbersWhitespaceExcluded_chunks chunks lineCounter deletedLines').
Proof.
  revert lineCounter deletedLines deletedLines'.
  induction chunks as [|[ty c] chunks IH]; intros lc dl dl' Hsub; [done|].
  destruct ty; simpl.
  - destruct (chunkLines_cases c) as [[-> ->]|(n & -> & Hn)]; [done|].
    simpl. by apply IH.
  - by apply IH.
  - destruct (chunkLines_cases c) as [[-> ->]|(n & -> & Hn)]; [done|].
    simpl.
    destruct (deletedNonEmpty_sublist (strings.Split c gitfuncs.nl) lc (seqZ 1 n) dl')
      as (sub & -> & Hsub').
    { intros i Hi%elem_of_seqZ. lia. }
    simpl. apply IH. by apply sublist_app.
Qed.

Lemma filePatchesLoop_related patches (m m' : gmap string (list Z)) :
  (∀ p, option_Forall2 (fun l l' => sublist l' l) (m !! p) (m' !! p)) →
  outcome_rel
    (fun m m' : gmap string (list Z) =>
       ∀ p, option_Forall2 (fun l l' => sublist l' l) (m !! p) (m' !! p))
    (gitfuncs.filePatchesLoop gitfuncs.DeletedLineNumbers_chunks patches m)
    (gitfuncs.filePatchesLoop gitfuncs.DeletedLineNumbersWhitespaceExcluded_chunks patches m').
Proof.
  revert m m'. induction patches as [|patch patches IH]; intros m m' Hm; [done|].
  simpl.
  pose proof (chunks_loops_related (Chunks patch) 0 [] [] (sublist_nil)) as Hrel.
  destruct (gitfuncs.DeletedLineNumbers_chunks _ _ _) as [l|?| |];
    destruct (gitfuncs.DeletedLineNumbersWhitespaceExcluded_chunks _ _ _) as [l'|?| |];
    simpl in Hrel |- *; try done.
  destruct (gitfuncs.patchKey patch) as [key|?| |]; simpl; try done.
  apply IH. intros p. rewrite !lookup_insert. case_decide; [by constructor|done].
Qed.

(** An entry of the map [DeletedLineNumbers] returns is what the loop over
    the chunks gave for a file patch stored under that path. *)
Lemma filePatchesLoop_entry perFile patches (m0 m : gmap string (list Z)) p l :
  gitfuncs.filePatchesLoop perFile patches m0 = Ok m →
  m !! p = Some l →
  m0 !! p = Some l ∨
  ∃ patch, patch ∈ patches ∧ gitfuncs.patchKey patch = Ok p ∧
           perFile (Chunks patch) 0 [] = Ok l.
Proof.
  revert m0. induction patches as [|patch patches IH]; intros m0 H Hl; simpl in H.
  { injection H as <-. by left. }
  destruct (perFile (Chunks patch) 0 []) as [dl|?| |] eqn:E; try done. simpl in H.
  destruct (gitfuncs.patchKey patch) as [key|?| |] eqn:K; try done. simpl in H.
  destruct (IH _ H Hl) as [Hins|(patch' & Hin & HK & HE)].
  - rewrite lookup_insert in Hins. case_decide as Hkey.
    + injection Hins as <-. subst key. right. exists patch. split; [by left|done].
    + by left.
  - right. exists patch'. split; [by right|done].
Qed.

Lemma DeletedLineNumbers_entry Diff repo m parentHash p l :
  gitfuncs.DeletedLineNumbers Diff repo = Ok (m, parentHash) →
  m !! p = Some l →
  ∃ patch tree parentTree file,
    gitfuncs.CommitDiff Diff repo = Ok (patch, tree, parentTree) ∧
    file ∈ FilePatches patch ∧ gitfuncs.patchKey file = Ok p ∧
    gitfuncs.DeletedLineNumbers_chunks (Chunks file) 0 [] = Ok l.
Proof.
  unfold gitfuncs.DeletedLineNumbers. intros H Hl.
  destruct (gitfuncs.CommitDiff Diff repo) as [[[patch tree] parentTree]|?| |];
    try done. simpl in H.
  destruct (gitfuncs.filePatchesLoop _ _ _) as [m'|?| |] eqn:E; try done.
  injection H as <- <-.
  destruct (filePatchesLoop_entry _ _ _ _ _ _ E Hl) as [Hemp|(file & ? & ? & ?)].
  { by rewrite lookup_empty in Hemp. }
  by exists patch, tree, parentTree, file.
Qed.

(** C7. The whitespace-excluded line count of a file of a tree is at most
    its whitespace-included line count, and the two functions for the
    deleted lines end the same way; when they return, the deleted lines of
    the whitespace-excluded one are, for every file, among those of the
    other (as a sublist, in the same order). *)
Theorem whitespace_excluded_within_included
    (Diff : Tree.t → Tree.t → Patch) (repo : Repository) (tree : Tree.t) (filePath : string) :
  gitfuncs.FileLOCFromTreeWhitespaceExcluded tree filePath
    ≤ gitfuncs.FileLOCFromTree tree filePath ∧
  outcome_rel deleted_within
    (gitfuncs.DeletedLineNumbers Diff repo)
    (gitfuncs.DeletedLineNumbersWhitespaceExcluded Diff repo).
Proof.
  split; [apply FileLOCFromTreeWhitespaceExcluded_bounds|].
  unfold gitfuncs.DeletedLineNumbers, gitfuncs.DeletedLineNumbersWhitespaceExcluded.
  destruct (gitfuncs.CommitDiff Diff repo) as [[[patch t] parentTree]|?| |]; simpl; try done.
  pose proof (filePatchesLoop_related (FilePatches patch) ∅ ∅) as Hrel.
  destruct (gitfuncs.filePatchesLoop gitfuncs.DeletedLineNumbers_chunks _ _) as [m|?| |];
    destruct (gitfuncs.filePatchesLoop gitfuncs.DeletedLineNumbersWhitespaceExcluded_chunks _ _)
      as [m'|?| |];
    simpl in Hrel |- *; try (apply Hrel; intros p; rewrite !lookup_empty; constructor).
  split; [done|]. apply Hrel. intros p. rewrite !lookup_empty. constructor.
Qed.

(** C4: the code at a chunk of empty content. An Equal or Delete chunk
    whose content is the empty string makes [c[len(c)-1]] index out of
    range: the loop over the chunks panics, in both variants, and so does
    the whole function; the claim says the chunk counts for no line and
    nothing fails. *)
Theorem empty_chunk_panics :
  gitfuncs.DeletedLineNumbers_chunks [ {| Type_ := Equal; Content := "" |} ] 0 [] = Panic ∧
  gitfuncs.DeletedLineNumbers_chunks [ {| Type_ := Delete; Content := "" |} ] 0 [] = Panic ∧
  gitfuncs.DeletedLineNumbersWhitespaceExcluded_chunks
    [ {| Type_ := Delete; Content := "" |} ] 0 [] = Panic ∧
  gitfuncs.DeletedLineNumbers (fun _ _ => example.emptyChunkPatch) example.repo = Panic.
Proof. repeat split; vm_compute; reflexivity. Qed.

(** C3: the code at a line of two spaces. The whitespace-excluded line
    count and deleted-line list leave out only the lines that are the empty
    string: of the four lines ["x"; "  "; ""; "y"] the count is 3 and the
    deleted lines are 1, 2 and 4, the line of spaces among them. The
    insertion count of the same mode trims: of the added lines ["z"; "  "]
    it counts one. *)
Theorem blank_line_is_counted :
  gitfuncs.FileLOCFromTree example.blankTree "a.txt" = 4 ∧
  gitfuncs.FileLOCFromTreeWhitespaceExcluded example.blankTree "a.txt" = 3 ∧
  gitfuncs.DeletedLineNumbersWhitespaceExcluded_chunks example.blankChunks 0 [] = Ok [1; 2; 4] ∧
  (∃ m, metrics.CalculateDiffMetricsWhitespaceExcluded example.Diff example.repo "a.txt" = Ok m ∧
        metrics.Insertions (metrics.Embedded m) = 1 ∧
        metrics.LinesAfter (metrics.Embedded m) = 3).
Proof.
  repeat split; try (vm_compute; reflexivity).
  eexists. split; [vm_compute; reflexivity|]. split; reflexivity.
Qed.

(** ** The file metrics calculator *)

Lemma flags_spec linesBefore linesAfter :
  0 ≤ linesBefore → 0 ≤ linesAfter →
  ((metrics.flags linesBefore linesAfter).1 = true ↔ linesBefore = 0 ∧ linesAfter > 0) ∧
  ((metrics.flags linesBefore linesAfter).2 = true ↔ linesBefore > 0 ∧ linesAfter = 0).
Proof.
  intros Hb Ha. unfold metrics.flags. simpl.
  rewrite !bool_decide_eq_true. lia.
Qed.

Lemma statsOf_absent diffStats filePath :
  (∀ value, value ∈ diffStats → StatName value ≠ filePath) →
  metrics.statsOf diffStats filePath = (0, 0).
Proof.
  unfold metrics.statsOf. generalize (0, 0).
  induction diffStats as [|value diffStats IH]; intros acc Habs; [done|].
  simpl. rewrite decide_False by (apply Habs; by left).
  apply IH. intros v Hv. apply Habs. by right.
Qed.

(** C6. In a [FileDiffMetrics] returned by either calculator the line
    counts are not negative, [NewFile] holds exactly when [LinesBefore] is
    0 and [LinesAfter] is positive, and [DeleteFile] exactly when
    [LinesBefore] is positive and [LinesAfter] is 0; so both are false in
    every other case. *)
Theorem flags_follow_line_counts
    (Diff : Tree.t → Tree.t → Patch) (repo : Repository) (filePath : string)
    (m : metrics.FileDiffMetrics) :
  metrics.CalculateDiffMetricsWithWhitespace Diff repo filePath = Ok m ∨
  metrics.CalculateDiffMetricsWhitespaceExcluded Diff repo filePath = Ok m →
  0 ≤ metrics.LinesBefore (metrics.Embedded m) ∧
  0 ≤ metrics.LinesAfter (metrics.Embedded m) ∧
  (metrics.NewFile m = true ↔
     metrics.LinesBefore (metrics.Embedded m) = 0 ∧
     metrics.LinesAfter (metrics.Embedded m) > 0) ∧
  (metrics.DeleteFile m = true ↔
     metrics.LinesBefore (metrics.Embedded m) > 0 ∧
     metrics.LinesAfter (metrics.Embedded m) = 0).
Proof.
  intros [H|H].
  - unfold metrics.CalculateDiffMetricsWithWhitespace in H.
    destruct (gitfuncs.CommitDiff Diff repo) as [[[patch tree] parentTree]|?| |];
      simpl in H; try discriminate.
    destruct (metrics.statsOf _ _) as [ins del].
    pose proof (FileLOCFromTree_nonneg parentTree filePath) as Hb.
    pose proof (FileLOCFromTree_nonneg tree filePath) as Ha.
    pose proof (flags_spec _ _ Hb Ha) as Hf.
    injection H as <-. simpl in *. tauto.
  - unfold metrics.CalculateDiffMetricsWhitespaceExcluded in H.
    destruct (gitfuncs.CommitDiff Diff repo) as [[[patch tree] parentTree]|?| |];
      simpl in H; try discriminate.
    destruct (decide _); [discriminate|].
    destruct (metrics.index _ 1) as [t1|?| |]; simpl in H; try discriminate.
    destruct (metrics.index _ 1) as [t2|?| |]; simpl in H; try discriminate.
    destruct (metrics.index _ 0) as [t3|?| |]; simpl in H; try discriminate.
    destruct (metrics.countMarked _) as [ins del].
    pose proof (FileLOCFromTreeWhitespaceExcluded_bounds parentTree filePath) as [Hb _].
    pose proof (FileLOCFromTreeWhitespaceExcluded_bounds tree filePath) as [Ha _].
    pose proof (flags_spec _ _ Hb Ha) as Hf.
    injection H as <-. simpl in *. tauto.
Qed.

Lemma flags_follow_line_counts_witness :
  (∃ m, metrics.CalculateDiffMetricsWithWhitespace example.Diff example.repo "b.txt" = Ok m ∧
        0 ≤ metrics.LinesBefore (metrics.Embedded m) ∧
        0 ≤ metrics.LinesAfter (metrics.Embedded m) ∧
        (metrics.NewFile m = true ↔
           metrics.LinesBefore (metrics.Embedded m) = 0 ∧
           metrics.LinesAfter (metrics.Embedded m) > 0) ∧
        (metrics.DeleteFile m = true ↔
           metrics.LinesBefore (metrics.Embedded m) > 0 ∧
           metrics.LinesAfter (metrics.Embedded m) = 0)) ∧
  (∃ m, metrics.CalculateDiffMetricsWhitespaceExcluded example.Diff example.repo "a.txt" = Ok m ∧
        0 ≤ metrics.LinesBefore (metrics.Embedded m) ∧
        0 ≤ metrics.LinesAfter (metrics.Embedded m) ∧
        (metrics.NewFile m = true ↔
           metrics.LinesBefore (metrics.Embedded m) = 0 ∧
           metrics.LinesAfter (metrics.Embedded m) > 0) ∧
        (metrics.DeleteFile m = true ↔
           metrics.LinesBefore (metrics.Embedded m) > 0 ∧
           metrics.LinesAfter (metrics.Embedded m) = 0)).
Proof.
  split.
  - eexists. split; [vm_compute; reflexivity|].
    apply (flags_follow_line_counts example.Diff example.repo "b.txt").
    left. vm_compute. reflexivity.
  - eexists. split; [vm_compute; reflexivity|].
    apply (flags_follow_line_counts example.Diff example.repo "a.txt").
    right. vm_compute. reflexivity.
Defined.

(** C10. When no entry of the patch's stats has the name [filePath],
    [CalculateDiffMetricsWithWhitespace] returns a [FileDiffMetrics] with
    [Insertions] and [Deletions] 0, [LinesBefore] the line count of the
    file in the parent tree and [LinesAfter] its line count in the tree of
    the commit. *)
Theorem absent_from_stats_zero_churn
    (Diff : Tree.t → Tree.t → Patch) (repo : Repository) (filePath : string)
    (patch : Patch) (tree parentTree : Tree.t) :
  gitfuncs.CommitDiff Diff repo = Ok (patch, tree, parentTree) →
  (∀ value, value ∈ Stats patch → StatName value ≠ filePath) →
  ∃ m,
    metrics.CalculateDiffMetricsWithWhitespace Diff repo filePath = Ok m ∧
    metrics.Insertions (metrics.Embedded m) = 0 ∧
    metrics.Deletions (metrics.Embedded m) = 0 ∧
    metrics.LinesBefore (metrics.Embedded m) = gitfuncs.FileLOCFromTree parentTree filePath ∧
    metrics.LinesAfter (metrics.Embedded m) = gitfuncs.FileLOCFromTree tree filePath.
Proof.
  intros Hdiff Habs. unfold metrics.CalculateDiffMetricsWithWhitespace.
  rewrite Hdiff. simpl. rewrite statsOf_absent by done.
  eexists. split; [reflexivity|]. simpl. done.
Qed.

Lemma absent_from_stats_zero_churn_witness :
  ∃ m,
    metrics.CalculateDiffMetricsWithWhitespace example.Diff example.repo "b.txt" = Ok m ∧
    metrics.Insertions (metrics.Embedded m) = 0 ∧
    metrics.Deletions (metrics.Embedded m) = 0 ∧
    metrics.LinesBefore (metrics.Embedded m) =
      gitfuncs.FileLOCFromTree {| Tree.Hash := "t1"; Tree.Entries := {[ "a.txt" := example.a1 ]} |} "b.txt" ∧
    metrics.LinesAfter (metrics.Embedded m) =
      gitfuncs.FileLOCFromTree
        {| Tree.Hash := "t2"; Tree.Entries := list_to_map [("a.txt", example.a2); ("b.txt", "")] |} "b.txt".
Proof.
  apply (absent_from_stats_zero_churn example.Diff example.repo "b.txt" example.patch).
  - vm_compute. reflexivity.
  - intros value Hv. vm_compute in Hv.
    apply list_elem_of_singleton in Hv as ->. vm_compute. discriminate.
Defined.

(** C2: the code at a path that is not in the stats. The calculator that
    reads insertions and deletions from the stats has no error result; at
    the path [nofile.txt], which no entry of the stats names, it returns a
    metrics value, all zero, where the claim says it fails with
    FileNotInDiff. The other calculator does fail at that path. *)
Theorem absent_from_stats_is_no_error :
  (∀ value, value ∈ Stats example.patch → StatName value ≠ "nofile.txt") ∧
  metrics.CalculateDiffMetricsWithWhitespace example.Diff example.repo "nofile.txt" =
    Ok {| metrics.Embedded :=
            {| metrics.Insertions := 0; metrics.Deletions := 0;
               metrics.LinesBefore := 0; metrics.LinesAfter := 0 |};
          metrics.File := "nofile.txt";
          metrics.NewFile := false;
          metrics.DeleteFile := false |} ∧
  metrics.CalculateDiffMetricsWhitespaceExcluded example.Diff example.repo "nofile.txt" =
    Err (ErrorNew "File: nofile.txt not found in the given commitHash").
Proof.
  split; [|split; vm_compute; reflexivity].
  intros value Hv. vm_compute in Hv.
  apply list_elem_of_singleton in Hv as ->. vm_compute. discriminate.
Qed.

(** ** The traversal of the object store *)

Section traversal.

Import revlist.

Variable s : gmap string Object.

Lemma expand_Ok h next :
  expand s h = Ok next → next = children s h ∧ h ∈ dom s.
Proof.
  unfold expand, children. intros H.
  destruct (s !! h) as [[a c m t ps|es]|] eqn:E; [| |done].
  - destruct (_ && _); [|done]. injection H as <-.
    split; [done|]. apply elem_of_dom. by eexists.
  - injection H as <-. split; [done|]. apply elem_of_dom. by eexists.
Qed.

Lemma expand_isOk h :
  isOk (expand s h) = true → expand s h = Ok (children s h).
Proof.
  destruct (expand s h) as [next|?| |] eqn:E; try done.
  intros _. by destruct (expand_Ok _ _ E) as [-> _].
Qed.

Lemma expand_result h :
  expand s h = Ok (children s h) ∨ expand s h = Err ErrObjectNotFound.
Proof.
  unfold expand, children.
  destruct (s !! h) as [[a c m t ps|es]|]; [|by left|by right].
  destruct (_ && _); [by left|by right].
Qed.

Lemma skipSeen_nil seen todo :
  skipSeen seen todo = [] → ∀ t, t ∈ todo → t ∈ seen.
Proof.
  induction todo as [|h todo IH]; intros H t Ht; [by apply elem_of_nil in Ht|].
  simpl in H. destruct (decide (h ∈ seen)); [|done].
  apply elem_of_cons in Ht as [->|Ht]; auto.
Qed.

Lemma skipSeen_cons seen todo h rest :
  skipSeen seen todo = h :: rest →
  (h ∉ seen) ∧ (h ∈ todo) ∧
  (∀ t, t ∈ todo → t ∈ seen ∨ t = h ∨ t ∈ rest) ∧
  (∀ t, t ∈ rest → t ∈ todo).
Proof.
  induction todo as [|h' todo IH]; intros H; [done|].
  simpl in H. destruct (decide (h' ∈ seen)) as [Hseen|Hseen].
  - destruct (IH H) as (? & ? & Hcov & Hrest).
    split; [done|]. split; [by right|]. split.
    + intros t [->|Ht]%elem_of_cons; auto.
    + intros t Ht. right. auto.
  - injection H as -> ->. split; [done|]. split; [by left|]. split.
    + intros t [->|Ht]%elem_of_cons; auto.
    + intros t Ht. by right.
Qed.

Lemma reachable_child h k x :
  k ∈ children s h → reachable s k x → reachable s h x.
Proof. intros Hk Hx. by eapply rtc_l. Qed.

(** What the traversal marks was marked before or is an object it
    could visit, reachable from where it started. *)
Lemma walk_sound fuel seen todo seen' r :
  walk fuel s seen todo = (seen', r) →
  seen ⊆ seen' ∧
  ∀ x, x ∈ seen' →
       x ∈ seen ∨ (isOk (expand s x) = true ∧ ∃ t, t ∈ todo ∧ reachable s t x).
Proof.
  revert seen todo. induction fuel as [|fuel IH]; intros seen todo H; simpl in H.
  { injection H as <- <-. split; [done|]. auto. }
  destruct (skipSeen seen todo) as [|h rest] eqn:Hskip.
  { injection H as <- <-. split; [done|]. auto. }
  destruct (skipSeen_cons _ _ _ _ Hskip) as (Hh & Hin & Hcov & Hrest).
  destruct (expand s h) as [next|?| |] eqn:E;
    try (injection H as <- <-; split; [done|]; auto).
  destruct (expand_Ok _ _ E) as [-> Hdom].
  apply IH in H as [Hsub Hmark]. split; [set_solver|].
  intros x Hx. destruct (Hmark x Hx) as [[->%elem_of_singleton|Hs]%elem_of_union|[Hok (t & Ht & Hreach)]].
  - right. rewrite E. split; [done|]. exists h. split; [done|]. apply rtc_refl.
  - by left.
  - right. split; [done|]. apply elem_of_app in Ht as [Ht|Ht].
    + exists h. split; [done|]. by eapply reachable_child.
    + exists t. split; [auto|done].
Qed.

(** When the traversal comes to its end, the marks are closed and hold
    the starting points. *)
Lemma walk_closed fuel seen todo seen' :
  walk fuel s seen todo = (seen', Ok tt) →
  (∀ h k, h ∈ seen → k ∈ children s h → k ∈ seen ∨ k ∈ todo) →
  closed s seen' ∧ ∀ t, t ∈ todo → t ∈ seen'.
Proof.
  revert seen todo. induction fuel as [|fuel IH]; intros seen todo H Hinv; simpl in H.
  { done. }
  destruct (skipSeen seen todo) as [|h rest] eqn:Hskip.
  { injection H as <-. pose proof (skipSeen_nil _ _ Hskip) as Hall.
    split; [|done]. intros h k Hh Hk. destruct (Hinv h k Hh Hk); auto. }
  destruct (skipSeen_cons _ _ _ _ Hskip) as (Hh & Hin & Hcov & Hrest).
  destruct (expand s h) as [next|?| |] eqn:E; try done.
  destruct (expand_Ok _ _ E) as [-> Hdom].
  pose proof (walk_sound _ _ _ _ _ H) as [Hsub _].
  apply IH in H as [Hclosed Htodo].
  - split; [done|]. intros t Ht.
    destruct (Hcov t Ht) as [?|[->|?]].
    + apply Hsub. set_solver.
    + apply Hsub. set_solver.
    + apply Htodo. apply elem_of_app. by right.
  - intros h0 k [->%elem_of_singleton|Hh0]%elem_of_union Hk.
    + right. apply elem_of_app. by left.
    + destruct (Hinv h0 k Hh0 Hk) as [?|Hk'].
      * left. set_solver.
      * destruct (Hcov k Hk') as [?|[->|?]]; [left; set_solver..|].
        right. apply elem_of_app. by right.
Qed.

Lemma closed_reachable (X : gset string) h x :
  closed s X → h ∈ X → reachable s h x → x ∈ X.
Proof.
  intros Hclosed Hh Hreach. induction Hreach as [|a b c Hab _ IH]; [done|].
  apply IH. by eapply Hclosed.
Qed.

Lemma size_visit (seen : gset string) h :
  h ∈ dom s → h ∉ seen →
  (size (dom s ∖ ({[h]} ∪ seen)) < size (dom s ∖ seen))%nat.
Proof.
  intros Hdom Hseen. apply subset_size. set_solver.
Qed.

(** The fuel is never what stops the traversal. *)
Lemma walk_fuel fuel seen todo :
  (size (dom s ∖ seen) < fuel)%nat →
  (walk fuel s seen todo).2 ≠ OutOfFuel.
Proof.
  revert seen todo. induction fuel as [|fuel IH]; intros seen todo Hfuel; [lia|].
  simpl. destruct (skipSeen seen todo) as [|h rest] eqn:Hskip; [done|].
  destruct (skipSeen_cons _ _ _ _ Hskip) as (Hh & _).
  destruct (expand_result h) as [E|E]; rewrite E; [|done].
  destruct (expand_Ok _ _ E) as [_ Hdom].
  apply IH. pose proof (size_visit seen h Hdom Hh). lia.
Qed.

(** It ends at its end, at a missing object or at the fuel. *)
Lemma walk_result fuel seen todo :
  (walk fuel s seen todo).2 = Ok tt ∨
  (walk fuel s seen todo).2 = Err ErrObjectNotFound ∨
  (walk fuel s seen todo).2 = OutOfFuel.
Proof.
  revert seen todo. induction fuel as [|fuel IH]; intros seen todo; simpl; [auto|].
  destruct (skipSeen seen todo) as [|h rest]; [auto|].
  destruct (expand_result h) as [E|E]; rewrite E; [apply IH|auto].
Qed.

(** The traversal comes to its end when every object it can reach, and
    has not marked, can be visited. *)
Lemma walk_total fuel seen todo :
  (size (dom s ∖ seen) < fuel)%nat →
  (∀ t x, t ∈ todo → reachable s t x → x ∈ seen ∨ isOk (expand s x) = true) →
  ∃ seen', walk fuel s seen todo = (seen', Ok tt).
Proof.
  revert seen todo. induction fuel as [|fuel IH]; intros seen todo Hfuel Hok; [lia|].
  simpl. destruct (skipSeen seen todo) as [|h rest] eqn:Hskip; [by eexists|].
  destruct (skipSeen_cons _ _ _ _ Hskip) as (Hh & Hin & Hcov & Hrest).
  destruct (Hok h h Hin (rtc_refl _ _)) as [?|E]; [done|].
  apply expand_isOk in E. rewrite E.
  destruct (expand_Ok _ _ E) as [_ Hdom].
  apply IH.
  - pose proof (size_visit seen h Hdom Hh). lia.
  - intros t x [Ht|Ht]%elem_of_app Hreach.
    + destruct (Hok h x Hin (reachable_child _ _ _ Ht Hreach)); [left; set_solver|by right].
    + destruct (Hok t x (Hrest _ Ht) Hreach); [left; set_solver|by right].
Qed.

End traversal.

(** ** [revlist.Objects] *)

Section objects_loop.

Import revlist.

Variable s : gmap string Object.

Lemma size_dom_bound (seen : gset string) : (size (dom s ∖ seen) < S (size s))%nat.
Proof.
  rewrite <-size_dom. apply Nat.lt_succ_r, subseteq_size. set_solver.
Qed.

Lemma processObject_fuel seen h : (processObject s seen h).2 ≠ OutOfFuel.
Proof. apply walk_fuel, size_dom_bound. Qed.

(** From closed marks and a traversable object, [processObject] adds
    exactly what is reachable from the object. *)
Lemma processObject_spec seen h :
  closed s seen → traversable s h →
  ∃ seen',
    processObject s seen h = (seen', Ok tt) ∧
    closed s seen' ∧
    ∀ x, x ∈ seen' ↔ x ∈ seen ∨ reachable s h x.
Proof.
  intros Hclosed Htrav. unfold processObject.
  destruct (walk_total s (S (size s)) seen [h]) as [seen' Hwalk].
  { apply size_dom_bound. }
  { intros t x ->%list_elem_of_singleton Hreach. right. by apply Htrav. }
  exists seen'. split; [done|].
  destruct (walk_sound _ _ _ _ _ _ Hwalk) as [Hsub Hmark].
  destruct (walk_closed _ _ _ _ _ Hwalk) as [Hclosed' Hstart].
  { intros h0 k Hh0 Hk. left. by eapply Hclosed. }
  split; [done|]. intros x. split.
  - intros Hx. destruct (Hmark x Hx) as [?|(_ & t & ->%list_elem_of_singleton & ?)]; auto.
  - intros [Hx|Hx]; [by apply Hsub|].
    eapply closed_reachable; [done| |done]. apply Hstart. by left.
Qed.

Lemma objectsLoop_fuel allowMissing seen objs :
  objectsLoop s allowMissing seen objs ≠ OutOfFuel.
Proof.
  revert seen. induction objs as [|h objs IH]; intros seen; [done|].
  simpl. pose proof (processObject_fuel seen h) as Hfuel.
  destruct (processObject s seen h) as [seen' [[]|e| |]]; simpl in Hfuel; try done.
  destruct e; try done. destruct allowMissing; [apply IH|done].
Qed.

Lemma objectsLoop_result allowMissing seen objs :
  isOk (objectsLoop s allowMissing seen objs) = true ∨
  objectsLoop s allowMissing seen objs = Err ErrObjectNotFound.
Proof.
  revert seen. induction objs as [|h objs IH]; intros seen; [by left|].
  simpl. pose proof (processObject_fuel seen h) as Hfuel.
  destruct (walk_result s (S (size s)) seen [h]) as [H|[H|H]];
    unfold processObject in *; destruct (walk _ _ _ _) as [seen' res];
    simpl in H, Hfuel; subst res; [apply IH| |done].
  destruct allowMissing; [apply IH|by right].
Qed.

(** What the loop marks, however it goes on after a missing object, could
    be visited. *)
Lemma objectsLoop_sound allowMissing seen objs seen' :
  objectsLoop s allowMissing seen objs = Ok seen' →
  ∀ x, x ∈ seen' → x ∈ seen ∨ isOk (expand s x) = true.
Proof.
  revert seen. induction objs as [|h objs IH]; intros seen H x Hx; simpl in H.
  { injection H as <-. by left. }
  destruct (processObject s seen h) as [seen1 r] eqn:Hwalk.
  destruct (walk_sound _ _ _ _ _ _ Hwalk) as [_ Hmark].
  assert (objectsLoop s allowMissing seen1 objs = Ok seen') as Hrest.
  { destruct r as [[]|e| |]; try done. destruct e; try done.
    by destruct allowMissing. }
  destruct (IH _ Hrest x Hx) as [Hx1|?]; [|by right].
  destruct (Hmark x Hx1) as [?|[? _]]; auto.
Qed.

Lemma objectsLoop_spec allowMissing seen objs :
  closed s seen → (∀ o, o ∈ objs → traversable s o) →
  ∃ seen',
    objectsLoop s allowMissing seen objs = Ok seen' ∧
    closed s seen' ∧
    ∀ x, x ∈ seen' ↔ x ∈ seen ∨ ∃ o, o ∈ objs ∧ reachable s o x.
Proof.
  revert seen. induction objs as [|h objs IH]; intros seen Hclosed Htrav.
  { exists seen. split; [done|]. split; [done|]. intros x. split; [auto|].
    intros [?|(o & Ho & _)]; [done|]. by apply elem_of_nil in Ho. }
  destruct (processObject_spec seen h Hclosed) as (seen1 & Hwalk & Hclosed1 & Hmem1).
  { apply Htrav. by left. }
  destruct (IH seen1 Hclosed1) as (seen' & Hloop & Hclosed' & Hmem').
  { intros o Ho. apply Htrav. by right. }
  exists seen'. simpl. rewrite Hwalk. split; [done|]. split; [done|].
  intros x. rewrite Hmem', Hmem1. split.
  - intros [[?|?]|(o & Ho & ?)]; [by left|right..].
    + exists h. split; [by left|done].
    + exists o. split; [by right|done].
  - intros [?|(o & [->|Ho]%elem_of_cons & ?)]; [by left; left|by left; right|].
    right. by exists o.
Qed.

(** [pick] gives the elements of the list, each once. *)
Lemma pick_Permutation {A} (l : list A) rnd : pick (length l) rnd l ≡ₚ l.
Proof.
  remember (length l) as n eqn:Hn. revert l rnd Hn.
  induction n as [|n IH]; intros l rnd Hn.
  { by destruct l. }
  simpl.
  assert ((rnd mod length l) < length l)%nat as Hlt
    by (apply Nat.mod_upper_bound; lia).
  destruct (lookup_lt_is_Some_2 l _ Hlt) as [x Hx]. rewrite Hx.
  etrans; [|symmetry; apply (delete_Permutation l _ x Hx)].
  apply perm_skip, IH. rewrite length_delete by eauto. lia.
Qed.

(** And every order of the elements is given by some [rnd]. *)
Lemma pick_any_order {A} (l l' : list A) :
  l' ≡ₚ l → ∃ rnd, pick (length l) rnd l = l'.
Proof.
  revert l. induction l' as [|x l' IH]; intros l Hperm.
  { apply Permutation_nil in Hperm as ->. by exists 0%nat. }
  assert (x ∈ l) as [k Hk]%list_elem_of_lookup by (rewrite <-Hperm; by left).
  pose proof (delete_Permutation l k x Hk) as Hdel.
  assert (l' ≡ₚ delete k l) as Hrest.
  { apply (Permutation_cons_inv (a := x)). by rewrite Hperm. }
  destruct (IH _ Hrest) as [rnd' Hpick].
  pose proof (lookup_lt_Some _ _ _ Hk) as Hlt.
  assert (length l = S (length (delete k l))) as Hlen.
  { rewrite length_delete by eauto. lia. }
  exists (k + length l * rnd')%nat. rewrite Hlen at 1. simpl.
  assert (((k + length l * rnd') mod length l)%nat = k) as ->.
  { rewrite Nat.Div0.add_mod, (Nat.mul_comm (length l)), Nat.Div0.mod_mul, Nat.add_0_r.
    rewrite Nat.Div0.mod_mod. by apply Nat.mod_small. }
  rewrite Hk. f_equal.
  assert (((k + length l * rnd') / length l)%nat = rnd') as ->; [|done].
  rewrite (Nat.mul_comm (length l)), Nat.div_add by lia.
  rewrite Nat.div_small by done. lia.
Qed.

Lemma hashSetToList_elem rnd (X : gset string) x :
  x ∈ hashSetToList rnd X ↔ x ∈ X.
Proof.
  unfold hashSetToList. rewrite pick_Permutation. apply elem_of_elements.
Qed.

Lemma hashSetToList_NoDup rnd (X : gset string) : NoDup (hashSetToList rnd X).
Proof.
  unfold hashSetToList. rewrite pick_Permutation. apply NoDup_elements.
Qed.

Lemma objects_fuel rnd objs ignore allowMissing :
  objects rnd s objs ignore allowMissing ≠ OutOfFuel.
Proof.
  unfold objects. pose proof (objectsLoop_fuel allowMissing (list_to_set ignore) objs).
  by destruct (objectsLoop _ _ _ _).
Qed.

Lemma objects_result rnd objs ignore allowMissing :
  isOk (objects rnd s objs ignore allowMissing) = true ∨
  objects rnd s objs ignore allowMissing = Err ErrObjectNotFound.
Proof.
  unfold objects.
  destruct (objectsLoop_result allowMissing (list_to_set ignore) objs) as [H| ->]; [|by right].
  destruct (objectsLoop _ _ _ _); try done. by left.
Qed.

Lemma objects_sound rnd objs ignore allowMissing l :
  objects rnd s objs ignore allowMissing = Ok l →
  NoDup l ∧ ∀ x, x ∈ l → (x ∉ ignore) ∧ isOk (expand s x) = true.
Proof.
  unfold objects. intros H.
  destruct (objectsLoop _ _ _ _) as [seen'|?| |] eqn:Hloop; try done.
  injection H as <-. split; [apply hashSetToList_NoDup|].
  intros x [Hx Hnot]%hashSetToList_elem%elem_of_difference.
  rewrite elem_of_list_to_set in Hnot. split; [done|].
  destruct (objectsLoop_sound _ _ _ _ Hloop x Hx) as [Hign|?]; [|done].
  by apply elem_of_list_to_set in Hign.
Qed.

Lemma objects_spec rnd objs ignore allowMissing :
  closed s (list_to_set ignore) → (∀ o, o ∈ objs → traversable s o) →
  ∃ l,
    objects rnd s objs ignore allowMissing = Ok l ∧
    closed s (list_to_set ignore ∪ list_to_set l) ∧
    ∀ x, x ∈ l ↔ (∃ o, o ∈ objs ∧ reachable s o x) ∧ x ∉ ignore.
Proof.
  intros Hclosed Htrav. unfold objects.
  destruct (objectsLoop_spec allowMissing _ objs Hclosed Htrav)
    as (seen' & -> & Hclosed' & Hmem).
  eexists. split; [reflexivity|].
  assert (∀ x, x ∈ hashSetToList rnd (seen' ∖ list_to_set ignore)
               ↔ (∃ o, o ∈ objs ∧ reachable s o x) ∧ x ∉ ignore) as Hl.
  { intros x. rewrite hashSetToList_elem, elem_of_difference, Hmem.
    rewrite elem_of_list_to_set. tauto. }
  split; [|done].
  assert (list_to_set ignore ∪ list_to_set (hashSetToList rnd (seen' ∖ list_to_set ignore))
          = seen') as ->; [|done].
  apply set_eq. intros x.
  rewrite elem_of_union, !elem_of_list_to_set, Hl, Hmem.
  rewrite <-(elem_of_list_to_set (C := gset string)).
  destruct (decide (x ∈ (list_to_set ignore : gset string))); tauto.
Qed.

End objects_loop.

Section Objects_call.

Import revlist.

Variable s : gmap string Object.

Lemma closed_empty : closed s (list_to_set []).
Proof. intros h k Hh. set_solver. Qed.

Lemma Objects_fuel rnd objs ignore : Objects rnd s objs ignore ≠ OutOfFuel.
Proof.
  unfold Objects. pose proof (objects_fuel s rnd ignore [] true).
  destruct (objects rnd s ignore [] true) as [l0|?| |]; try done.
  apply objects_fuel.
Qed.

Lemma Objects_result rnd objs ignore :
  isOk (Objects rnd s objs ignore) = true ∨
  Objects rnd s objs ignore = Err ErrObjectNotFound.
Proof.
  unfold Objects.
  destruct (objects_result s rnd ignore [] true) as [H| ->]; [|by right].
  destruct (objects rnd s ignore [] true) as [l0|?| |]; try done. simpl.
  apply objects_result.
Qed.

Lemma Objects_sound rnd objs ignore l :
  Objects rnd s objs ignore = Ok l →
  NoDup l ∧ ∀ x, x ∈ l → isOk (expand s x) = true.
Proof.
  unfold Objects. intros H.
  destruct (objects rnd s ignore [] true) as [l0|?| |]; try done.
  apply objects_sound in H as [Hnd Hl]. split; [done|].
  intros x Hx. by apply Hl.
Qed.

Lemma traversable_reachable h x :
  traversable s h → reachable s h x → traversable s x.
Proof. intros Htrav Hx y Hy. apply Htrav. by etrans. Qed.

(** [Objects] on traversable objects: everything reachable from [objs]
    and not from [ignore], each hash once. *)
Lemma Objects_spec rnd objs ignore :
  (∀ o, o ∈ ignore → traversable s o) → (∀ o, o ∈ objs → traversable s o) →
  ∃ l,
    Objects rnd s objs ignore = Ok l ∧
    NoDup l ∧
    ∀ x, x ∈ l ↔ (∃ o, o ∈ objs ∧ reachable s o x) ∧
                  ¬ (∃ o, o ∈ ignore ∧ reachable s o x).
Proof.
  intros Hign Hobjs. unfold Objects.
  destruct (objects_spec s rnd ignore [] true closed_empty Hign)
    as (l0 & -> & Hclosed0 & Hl0).
  simpl.
  destruct (objects_spec s rnd objs l0 false) as (l & Hl & _ & Hmem); [|done|].
  { replace (list_to_set l0 : gset string) with (list_to_set [] ∪ list_to_set l0 : gset string);
      [done|set_solver]. }
  exists l. split; [done|]. split; [by apply (objects_sound s rnd objs l0 false)|].
  intros x. rewrite Hmem, Hl0. split.
  - intros [? Hnot]. split; [done|]. intros ?. apply Hnot. split; [done|]. apply not_elem_of_nil.
  - intros [? Hnot]. split; [done|]. intros [? _]. by apply Hnot.
Qed.

(** When [processObject] comes to its end from closed marks, what it
    could reach was marked or could be visited. *)
Lemma processObject_Ok seen h seen' :
  closed s seen → processObject s seen h = (seen', Ok tt) →
  closed s seen' ∧
  (∀ x, x ∈ seen' ↔ x ∈ seen ∨ reachable s h x) ∧
  (∀ x, reachable s h x → x ∈ seen ∨ isOk (expand s x) = true).
Proof.
  intros Hclosed Hwalk. unfold processObject in Hwalk.
  destruct (walk_sound _ _ _ _ _ _ Hwalk) as [Hsub Hmark].
  destruct (walk_closed _ _ _ _ _ Hwalk) as [Hclosed' Hstart].
  { intros h0 k Hh0 Hk. left. by eapply Hclosed. }
  assert (∀ x, reachable s h x → x ∈ seen') as Hreach.
  { intros x Hx. eapply closed_reachable; [done| |done]. apply Hstart. by left. }
  split; [done|]. split.
  - intros x. split; [|intros [?|?]; auto].
    intros Hx. destruct (Hmark x Hx) as [?|(_ & t & ->%list_elem_of_singleton & ?)]; auto.
  - intros x Hx%Hreach. destruct (Hmark x Hx) as [?|[? _]]; auto.
Qed.

Lemma objectsLoop_Ok seen objs seen' :
  closed s seen → objectsLoop s false seen objs = Ok seen' →
  ∀ o x, o ∈ objs → reachable s o x → x ∈ seen' ∧ (x ∈ seen ∨ isOk (expand s x) = true).
Proof.
  revert seen. induction objs as [|h objs IH]; intros seen Hclosed H o x Ho Hx.
  { by apply elem_of_nil in Ho. }
  simpl in H. destruct (processObject s seen h) as [seen1 r] eqn:Hwalk.
  assert (r = Ok tt ∧ objectsLoop s false seen1 objs = Ok seen') as [-> Hrest].
  { destruct r as [[]|e| |]; try done. by destruct e. }
  destruct (processObject_Ok _ _ _ Hclosed Hwalk) as (Hclosed1 & Hmem1 & Hok1).
  assert (seen1 ⊆ seen') as Hsub.
  { clear -Hrest. revert seen1 Hrest. induction objs as [|h' objs IH']; intros seen1 H.
    - by injection H as <-.
    - simpl in H. destruct (processObject s seen1 h') as [seen2 r] eqn:Hwalk.
      destruct (walk_sound _ _ _ _ _ _ Hwalk) as [Hsub _].
      assert (objectsLoop s false seen2 objs = Ok seen') as Hrest.
      { destruct r as [[]|e| |]; try done. by destruct e. }
      apply IH' in Hrest. set_solver. }
  apply elem_of_cons in Ho as [->|Ho].
  - split; [apply Hsub, Hmem1; by right|by apply Hok1].
  - destruct (IH _ Hclosed1 Hrest o x Ho Hx) as [Hin [Hx1|?]]; [|by split; [|right]].
    split; [done|]. apply Hmem1 in Hx1 as [?|?]; [by left|by apply Hok1].
Qed.

Lemma objects_Ok rnd objs ignore l :
  closed s (list_to_set ignore) → objects rnd s objs ignore false = Ok l →
  ∀ o x, o ∈ objs → reachable s o x → x ∈ ignore ∨ isOk (expand s x) = true.
Proof.
  unfold objects. intros Hclosed H o x Ho Hx.
  destruct (objectsLoop _ _ _ _) as [seen'|?| |] eqn:Hloop; try done.
  destruct (objectsLoop_Ok _ _ _ Hclosed Hloop o x Ho Hx) as [_ [Hi|?]]; [|by right].
  left. by apply elem_of_list_to_set in Hi.
Qed.

End Objects_call.

(** ** [sort.Slice] on a comparison of keys *)

Section sorting.

Context {A : Type} (key : A → Z).

Lemma insertLeft_Permutation (lt : A → A → bool) x before :
  sort.insertLeft lt x before ≡ₚ x :: before.
Proof.
  induction before as [|y before IH]; simpl; [done|].
  destruct (lt x y); [|done]. rewrite IH. apply perm_swap.
Qed.

Lemma Slice_Permutation (lt : A → A → bool) l : sort.Slice l lt ≡ₚ l.
Proof.
  unfold sort.Slice. rewrite <-Permutation_rev.
  assert (∀ before, fold_left (fun before x => sort.insertLeft lt x before) l before
                    ≡ₚ l ++ before) as H.
  { induction l as [|x l IH]; intros before; simpl; [done|].
    rewrite IH, insertLeft_Permutation. by rewrite Permutation_middle. }
  by rewrite H, app_nil_r.
Qed.

(** The sorted part, nearest neighbour first, goes up in key; so does it
    with one more element moved in. *)
Lemma insertLeft_sorted x before :
  StronglySorted (fun a b => key a ≤ key b) before →
  StronglySorted (fun a b => key a ≤ key b) (sort.insertLeft (greaterKey key) x before).
Proof.
  induction 1 as [|y before Hsorted IH Hy]; simpl.
  { repeat constructor. }
  unfold greaterKey at 1. case_bool_decide as Hlt.
  - constructor; [done|].
    rewrite insertLeft_Permutation. constructor; [lia|done].
  - constructor; [by constructor|].
    constructor; [lia|]. eapply Forall_impl; [exact Hy|]. simpl. intros; lia.
Qed.

Lemma StronglySorted_weaken (R R' : A → A → Prop) l :
  (∀ a b, R a b → R' a b) → StronglySorted R l → StronglySorted R' l.
Proof.
  intros HR. induction 1 as [|x l Hsorted IH Hx]; constructor; [done|].
  eapply Forall_impl; [exact Hx|]. auto.
Qed.

Lemma StronglySorted_rev_flip (R : A → A → Prop) l :
  StronglySorted R l → StronglySorted (flip R) (rev l).
Proof.
  induction 1 as [|x l Hsorted IH Hx]; simpl; [constructor|].
  apply StronglySorted_app_2; [|done|repeat constructor].
  intros a b Ha ->%list_elem_of_singleton. unfold flip.
  rewrite Forall_forall in Hx. apply Hx.
  by apply list_elem_of_In, in_rev, list_elem_of_In.
Qed.

(** The slice comes out with the keys going down. *)
Lemma Slice_sorted l :
  StronglySorted (fun a b => key a >= key b) (sort.Slice l (greaterKey key)).
Proof.
  unfold sort.Slice.
  assert (∀ before, StronglySorted (fun a b => key a ≤ key b) before →
            StronglySorted (fun a b => key a ≤ key b)
              (fold_left (fun before x => sort.insertLeft (greaterKey key) x before) l before)) as H.
  { induction l as [|x l IH]; intros before Hb; simpl; [done|].
    by apply IH, insertLeft_sorted. }
  specialize (H [] (SSorted_nil _)).
  apply StronglySorted_rev_flip in H.
  eapply StronglySorted_weaken; [|exact H].
  unfold flip. simpl. intros; lia.
Qed.

End sorting.

(** ** [RevList] *)

Section RevList.

Variable rnd : nat.
Variable r : Repository.

Lemma CommitObject_Hash h c : CommitObject r h = Ok c → Commit.Hash c = h.
Proof.
  unfold CommitObject, GetCommit. destruct (Storer r !! h) as [[]|]; try done.
  by intros [= <-].
Qed.

Lemma commitsOf_elem l c :
  c ∈ gitfuncs.commitsOf r l ↔ Commit.Hash c ∈ l ∧ CommitObject r (Commit.Hash c) = Ok c.
Proof.
  induction l as [|h l IH]; simpl.
  { split; [by intros ?%elem_of_nil|by intros [?%elem_of_nil _]]. }
  destruct (CommitObject r h) as [c'|?| |] eqn:E;
    rewrite ?elem_of_cons, IH; try (split; [tauto|]; intros [[->|?] HE]; [congruence|tauto]).
  pose proof (CommitObject_Hash _ _ E) as Hh. split.
  - intros [->|[? ?]]; [|tauto]. rewrite Hh. tauto.
  - intros [[->|?] HE]; [left; congruence|tauto].
Qed.

Lemma commitsOf_NoDup l : NoDup l → NoDup (gitfuncs.commitsOf r l).
Proof.
  induction 1 as [|h l Hh Hnd IH]; simpl; [constructor|].
  destruct (CommitObject r h) as [c|?| |] eqn:E; try done.
  constructor; [|done]. rewrite commitsOf_elem.
  rewrite (CommitObject_Hash _ _ E). tauto.
Qed.

Lemma commit_tree_Ok h c :
  isOk (revlist.expand (Storer r) h) = true → CommitObject r h = Ok c →
  isOk (Commit_Tree (Storer r) c) = true.
Proof.
  unfold revlist.expand, CommitObject, GetCommit, Commit_Tree.
  destruct (Storer r !! h) as [[a cm m t ps|]|]; try done.
  intros Hok [= <-]. simpl. by destruct (isOk (GetTree (Storer r) t)).
Qed.

Lemma commit_children h c :
  CommitObject r h = Ok c →
  children (Storer r) h = Commit.TreeHash c :: Commit.ParentHashes c.
Proof.
  unfold CommitObject, GetCommit, children.
  destruct (Storer r !! h) as [[a cm m t ps|]|]; try done. by intros [= <-].
Qed.

Lemma tree_children h :
  isOk (GetTree (Storer r) h) = true → children (Storer r) h = [].
Proof.
  unfold GetTree, children. by destruct (Storer r !! h) as [[]|].
Qed.

Lemma RevList_fuel beginCommit endCommit :
  gitfuncs.RevList rnd r beginCommit endCommit ≠ OutOfFuel.
Proof.
  unfold gitfuncs.RevList.
  pose proof (Objects_fuel (Storer r) rnd [plumbing.NewHash endCommit] []) as H1.
  destruct (revlist.Objects _ _ _ _) as [ref1hist|?| |]; try done. simpl.
  pose proof (Objects_fuel (Storer r) rnd [plumbing.NewHash beginCommit] ref1hist) as H2.
  by destruct (revlist.Objects _ _ _ _) as [ref2hist|?| |].
Qed.

(** What [RevList] returns, whenever it returns: commits of the store,
    each once, later ones first, each with its tree in the store. *)
Lemma RevList_sound beginCommit endCommit commits :
  gitfuncs.RevList rnd r beginCommit endCommit = Ok commits →
  NoDup commits ∧
  StronglySorted (fun ci cj => commitTime ci >= commitTime cj) commits ∧
  ∀ c, c ∈ commits →
       CommitObject r (Commit.Hash c) = Ok c ∧
       isOk (Commit_Tree (Storer r) c) = true.
Proof.
  unfold gitfuncs.RevList. intros H.
  destruct (revlist.Objects _ _ _ []) as [ref1hist|?| |]; try done. simpl in H.
  destruct (revlist.Objects _ _ _ ref1hist) as [ref2hist|?| |] eqn:E2; try done.
  injection H as <-.
  apply Objects_sound in E2 as [Hnd Hok].
  split; [|split].
  - rewrite Slice_Permutation. by apply commitsOf_NoDup.
  - apply (Slice_sorted commitTime).
  - intros c. rewrite Slice_Permutation, commitsOf_elem. intros [Hin Hc].
    split; [done|]. eapply commit_tree_Ok; [|done]. by apply Hok.
Qed.

(** [RevList] on traversable histories: the commits reachable from
    [beginCommit] and not from [endCommit]. *)
Lemma RevList_spec beginCommit endCommit :
  traversable (Storer r) beginCommit → traversable (Storer r) endCommit →
  ∃ commits,
    gitfuncs.RevList rnd r beginCommit endCommit = Ok commits ∧
    ∀ c, c ∈ commits ↔
         CommitObject r (Commit.Hash c) = Ok c ∧
         reachable (Storer r) beginCommit (Commit.Hash c) ∧
         ¬ reachable (Storer r) endCommit (Commit.Hash c).
Proof.
  intros Hb He. unfold gitfuncs.RevList, plumbing.NewHash.
  destruct (Objects_spec (Storer r) rnd [endCommit] []) as (ref1hist & -> & _ & H1).
  { by intros o ?%elem_of_nil. }
  { by intros o ->%list_elem_of_singleton. }
  simpl.
  destruct (Objects_spec (Storer r) rnd [beginCommit] ref1hist) as (ref2hist & -> & _ & H2).
  { intros o [(o' & ->%list_elem_of_singleton & Ho) _]%H1. by eapply traversable_reachable. }
  { by intros o ->%list_elem_of_singleton. }
  simpl. eexists. split; [reflexivity|].
  intros c. rewrite Slice_Permutation, commitsOf_elem, H2. split.
  - intros [[(o & ->%list_elem_of_singleton & Hreach) Hnot] Hc].
    split; [done|]. split; [done|]. intros Hend. apply Hnot.
    exists (Commit.Hash c). split; [|apply rtc_refl]. apply H1.
    split; [by exists endCommit; split; [left|]|]. by intros (o & ?%elem_of_nil & _).
  - intros (Hc & Hreach & Hnot). split; [|done]. split.
    + exists beginCommit. split; [by left|done].
    + intros (o & [(o' & ->%list_elem_of_singleton & Ho) _]%H1 & Hreach').
      apply Hnot. by etrans.
Qed.

(** [RevList] returns only on traversable histories. *)
Lemma RevList_Ok_traversable beginCommit endCommit commits :
  gitfuncs.RevList rnd r beginCommit endCommit = Ok commits →
  traversable (Storer r) beginCommit ∧ traversable (Storer r) endCommit.
Proof.
  unfold gitfuncs.RevList, plumbing.NewHash. intros H.
  destruct (revlist.Objects _ _ _ []) as [ref1hist|?| |] eqn:E1; try done.
  simpl in H.
  destruct (revlist.Objects _ _ _ ref1hist) as [ref2hist|?| |] eqn:E2; try done.
  clear H.
  assert (traversable (Storer r) endCommit) as He.
  { unfold revlist.Objects in E1.
    destruct (objects_spec (Storer r) rnd [] [] true (closed_empty _))
      as (l0 & Hl0 & Hclosed0 & Hmem0); [by intros o ?%elem_of_nil|].
    rewrite Hl0 in E1. simpl in E1.
    intros x Hx.
    destruct (objects_Ok (Storer r) rnd [endCommit] l0 ref1hist) with (o := endCommit) (x := x)
      as [Hx0|?]; [|done|by left|done| |done].
    - replace (list_to_set l0 : gset string)
        with (list_to_set [] ∪ list_to_set l0 : gset string); [done|set_solver].
    - apply Hmem0 in Hx0 as [(o & ?%elem_of_nil & _) _]. done. }
  split; [|done].
  destruct (Objects_spec (Storer r) rnd [endCommit] []) as (l1 & El1 & _ & H1).
  { by intros o ?%elem_of_nil. }
  { by intros o ->%list_elem_of_singleton. }
  rewrite E1 in El1. injection El1 as <-.
  unfold revlist.Objects in E2.
  destruct (objects_spec (Storer r) rnd ref1hist [] true (closed_empty _))
    as (l1' & Hl1' & Hclosed1 & Hmem1).
  { intros o [(o' & ->%list_elem_of_singleton & Ho) _]%H1. by eapply traversable_reachable. }
  rewrite Hl1' in E2. simpl in E2.
  intros x Hx.
  destruct (objects_Ok (Storer r) rnd [beginCommit] l1' ref2hist) with (o := beginCommit) (x := x)
    as [Hx1|?]; [|done|by left|done| |done].
  - replace (list_to_set l1' : gset string)
      with (list_to_set [] ∪ list_to_set l1' : gset string); [done|set_solver].
  - apply Hmem1 in Hx1 as [(o & [(o' & ->%list_elem_of_singleton & Ho) _]%H1 & Hreach) _].
    apply He. by etrans.
Qed.

(** [RevList] returns exactly on traversable histories, and fails
    otherwise with the error of a missing object. *)
Lemma RevList_Ok_iff beginCommit endCommit :
  isOk (gitfuncs.RevList rnd r beginCommit endCommit) = true ↔
  traversable (Storer r) beginCommit ∧ traversable (Storer r) endCommit.
Proof.
  split.
  - destruct (gitfuncs.RevList rnd r beginCommit endCommit) as [commits|?| |] eqn:E;
      try done. intros _. by eapply RevList_Ok_traversable.
  - intros [Hb He]. destruct (RevList_spec _ _ Hb He) as (commits & -> & _). done.
Qed.

Lemma RevList_result beginCommit endCommit :
  isOk (gitfuncs.RevList rnd r beginCommit endCommit) = true ∨
  gitfuncs.RevList rnd r beginCommit endCommit = Err ErrObjectNotFound.
Proof.
  unfold gitfuncs.RevList.
  destruct (Objects_result (Storer r) rnd [plumbing.NewHash endCommit] []) as [H| ->];
    [|by right].
  destruct (revlist.Objects _ _ _ []) as [ref1hist|?| |]; try done. simpl.
  destruct (Objects_result (Storer r) rnd [plumbing.NewHash beginCommit] ref1hist) as [H'| ->];
    [|by right].
  destruct (revlist.Objects _ _ _ ref1hist) as [ref2hist|?| |]; try done. by left.
Qed.

End RevList.

(** ** Reachability, computed *)

Lemma processObject_reachable s h :
  (revlist.processObject s ∅ h).2 = Ok tt →
  traversable s h ∧ ∀ x, reachable s h x ↔ x ∈ (revlist.processObject s ∅ h).1.
Proof.
  destruct (revlist.processObject s ∅ h) as [seen' res] eqn:Hwalk. simpl. intros ->.
  destruct (processObject_Ok s ∅ h seen') as (_ & Hmem & Hok); [|done|].
  { intros h0 k Hh0. set_solver. }
  split.
  - intros x Hx. destruct (Hok x Hx) as [?|?]; [set_solver|done].
  - intros x. rewrite Hmem. set_solver.
Qed.

Lemma NoDup_all_equal {A} (l : list A) a :
  NoDup l → (∀ c, c ∈ l ↔ c = a) → l = [a].
Proof.
  intros Hnd Hall. destruct l as [|x l].
  { exfalso. eapply elem_of_nil. by apply Hall. }
  assert (x = a) as -> by (apply Hall; by left).
  destruct l as [|y l]; [done|].
  assert (y = a) as -> by (apply Hall; right; by left).
  apply NoDup_cons in Hnd as [Hnot _]. exfalso. apply Hnot. by left.
Qed.

(** ** The claims on the commit range enumerator *)

(** C1, as amended. When every object reachable from the two commits can
    be read, [RevList] returns, each once, exactly the commits reachable
    from [beginCommit] and not from [endCommit]; so for the range (A,A)
    the result is empty, and when [beginCommit] is a child of [endCommit],
    with no other parent and not among its ancestors, the result is
    [beginCommit] alone. *)
Theorem RevList_begin_minus_end
    (rnd : nat) (r : Repository) (beginCommit endCommit : string) :
  traversable (Storer r) beginCommit →
  traversable (Storer r) endCommit →
  ∃ commits,
    gitfuncs.RevList rnd r beginCommit endCommit = Ok commits ∧
    NoDup commits ∧
    (∀ c, c ∈ commits ↔
          CommitObject r (Commit.Hash c) = Ok c ∧
          reachable (Storer r) beginCommit (Commit.Hash c) ∧
          ¬ reachable (Storer r) endCommit (Commit.Hash c)) ∧
    (beginCommit = endCommit → commits = []) ∧
    (∀ child,
       CommitObject r beginCommit = Ok child →
       Commit.ParentHashes child = [endCommit] →
       ¬ reachable (Storer r) endCommit beginCommit →
       commits = [child]).
Proof.
  intros Hb He.
  destruct (RevList_spec rnd r beginCommit endCommit Hb He) as (commits & HRev & Hmem).
  destruct (RevList_sound rnd r _ _ _ HRev) as (Hnd & _ & _).
  exists commits. split; [done|]. split; [done|]. split; [done|]. split.
  - intros <-. destruct commits as [|c commits]; [done|].
    exfalso. assert (c ∈ c :: commits) as Hc by by left.
    apply Hmem in Hc as (_ & Hreach & Hnot). by apply Hnot.
  - intros child Hchild Hparents Hacyclic.
    apply NoDup_all_equal; [done|]. intros c. rewrite Hmem. split.
    + intros (Hc & Hreach & Hnot).
      apply rtc_inv in Hreach as [Heq|(k & Hk & Hreach)].
      { rewrite <-Heq in Hc. congruence. }
      exfalso. rewrite (commit_children r _ _ Hchild), Hparents in Hk.
      apply elem_of_cons in Hk as [-> | ->%list_elem_of_singleton]; [|by apply Hnot].
      assert (isOk (GetTree (Storer r) (Commit.TreeHash child)) = true) as Htree.
      { apply (commit_tree_Ok r beginCommit); [|done]. apply Hb, rtc_refl. }
      apply rtc_inv in Hreach as [Heq|(k & Hk & _)].
      * rewrite <-Heq in Hc. unfold CommitObject, GetCommit in Hc.
        unfold GetTree in Htree.
        by destruct (Storer r !! Commit.TreeHash child) as [[]|].
      * rewrite (tree_children r _ Htree) in Hk. by apply elem_of_nil in Hk.
    + intros ->. rewrite (CommitObject_Hash r _ _ Hchild).
      split; [done|]. split; [apply rtc_refl|done].
Qed.

Lemma RevList_begin_minus_end_witness :
  ∃ commits,
    gitfuncs.RevList 0 example.repo "c2" "c1" = Ok commits ∧
    NoDup commits ∧
    (∀ c, c ∈ commits ↔
          CommitObject example.repo (Commit.Hash c) = Ok c ∧
          reachable example.store "c2" (Commit.Hash c) ∧
          ¬ reachable example.store "c1" (Commit.Hash c)) ∧
    ("c2" = "c1" → commits = []) ∧
    (∀ child,
       CommitObject example.repo "c2" = Ok child →
       Commit.ParentHashes child = ["c1"] →
       ¬ reachable example.store "c1" "c2" →
       commits = [child]).
Proof.
  apply (RevList_begin_minus_end 0 example.repo "c2" "c1").
  - apply processObject_reachable. vm_compute. reflexivity.
  - apply processObject_reachable. vm_compute. reflexivity.
Defined.

(** C1 as stated fails: with [c2] a direct child of [c1], the range from
    [beginCommit = c1] to [endCommit = c2] comes out empty, where the
    commits reachable from the end and not from the begin are [c2]. *)
Lemma RevList_not_end_minus_begin :
  ¬ (∀ rnd r beginCommit endCommit commits,
       gitfuncs.RevList rnd r beginCommit endCommit = Ok commits →
       (∀ c, c ∈ commits ↔
             CommitObject r (Commit.Hash c) = Ok c ∧
             reachable (Storer r) endCommit (Commit.Hash c) ∧
             ¬ reachable (Storer r) beginCommit (Commit.Hash c)) ∧
       (∀ child,
          CommitObject r endCommit = Ok child →
          Commit.ParentHashes child = [beginCommit] →
          commits = [child])).
Proof.
  intros H.
  destruct (H 0%nat example.repo "c1" "c2" []) as [Hmem Hchild].
  { vm_compute. reflexivity. }
  specialize (Hchild example.c2). discriminate Hchild; reflexivity.
Qed.

(** C9, as amended. The list [RevList] returns is sorted by committer
    timestamp, most recent first. Whatever the order of the map ranges of
    a run, the run returns, and returns the same commits; the order is the
    same too when no two of the commits have the same timestamp. Commits
    of equal timestamp can come in either order. *)
Theorem RevList_sorted_by_time
    (rnd : nat) (r : Repository) (beginCommit endCommit : string)
    (commits : list Commit.t) :
  gitfuncs.RevList rnd r beginCommit endCommit = Ok commits →
  StronglySorted (fun ci cj => commitTime ci >= commitTime cj) commits ∧
  ∀ rnd',
    ∃ commits',
      gitfuncs.RevList rnd' r beginCommit endCommit = Ok commits' ∧
      commits' ≡ₚ commits ∧
      ((∀ ci cj, ci ∈ commits → cj ∈ commits →
                 commitTime ci = commitTime cj → ci = cj) →
       commits' = commits).
Proof.
  intros HRev.
  destruct (RevList_sound rnd r _ _ _ HRev) as (Hnd & Hsorted & _).
  split; [done|]. intros rnd'.
  destruct (RevList_Ok_traversable rnd r _ _ _ HRev) as [Hb He].
  destruct (RevList_spec rnd r _ _ Hb He) as (commits0 & HRev0 & Hmem).
  rewrite HRev in HRev0. injection HRev0 as <-.
  destruct (RevList_spec rnd' r _ _ Hb He) as (commits' & HRev' & Hmem').
  destruct (RevList_sound rnd' r _ _ _ HRev') as (Hnd' & Hsorted' & _).
  exists commits'. split; [done|].
  assert (commits' ≡ₚ commits) as Hperm.
  { apply NoDup_Permutation; [done..|]. intros c. by rewrite Hmem, Hmem'. }
  split; [done|]. intros Hdistinct.
  eapply StronglySorted_unique_strong; [|exact Hsorted'|exact Hsorted|exact Hperm].
  intros ci cj Hi Hj Hij Hji. simpl in Hij, Hji.
  apply Hdistinct; [by rewrite <-Hperm|done|lia].
Qed.

Lemma RevList_sorted_by_time_witness :
  StronglySorted (fun ci cj => commitTime ci >= commitTime cj) [example.c2; example.c1] ∧
  ∀ rnd',
    ∃ commits',
      gitfuncs.RevList rnd' example.repo "c2" "c0" = Ok commits' ∧
      commits' ≡ₚ [example.c2; example.c1] ∧
      ((∀ ci cj, ci ∈ [example.c2; example.c1] → cj ∈ [example.c2; example.c1] →
                 commitTime ci = commitTime cj → ci = cj) →
       commits' = [example.c2; example.c1]).
Proof.
  apply (RevList_sorted_by_time 0 example.repo "c2" "c0").
  vm_compute. reflexivity.
Defined.

(** C9 as stated fails: on the history where [c1] and [c2] have the same
    committer time, two runs return them in different orders. *)
Lemma RevList_order_of_ties :
  ¬ (∀ rnd rnd' r beginCommit endCommit,
       gitfuncs.RevList rnd r beginCommit endCommit
       = gitfuncs.RevList rnd' r beginCommit endCommit).
Proof.
  intros H. specialize (H 0%nat 1%nat example.tieRepo "c2" "c0").
  vm_compute in H. discriminate H.
Qed.

(** ** The author extractor *)

Lemma uniqueFrom_spec keys arr :
  NoDup (helper.uniqueFrom keys arr) ∧
  ∀ x, x ∈ helper.uniqueFrom keys arr ↔ x ∈ arr ∧ x ∉ keys.
Proof.
  revert keys. induction arr as [|entry arr IH]; intros keys; simpl.
  { split; [constructor|]. intros x. rewrite elem_of_nil. tauto. }
  destruct (decide (entry ∈ keys)) as [Hin|Hin].
  - destruct (IH keys) as [Hnd Hmem]. split; [done|].
    intros x. rewrite Hmem, elem_of_cons. split; [tauto|].
    intros [[->|?] ?]; tauto.
  - destruct (IH ({[entry]} ∪ keys)) as [Hnd Hmem]. split.
    + constructor; [|done]. rewrite Hmem. set_solver.
    + intros x. rewrite !elem_of_cons, Hmem. split.
      * intros [->|[? ?]]; [tauto|]. split; [tauto|set_solver].
      * intros [[->|?] ?]; [tauto|]. destruct (decide (x = entry)); [tauto|].
        right. split; [done|set_solver].
Qed.

Lemma UniqueElements_spec arr :
  NoDup (helper.UniqueElements arr) ∧ ∀ x, x ∈ helper.UniqueElements arr ↔ x ∈ arr.
Proof.
  destruct (uniqueFrom_spec ∅ arr) as [Hnd Hmem]. split; [done|].
  intros x. unfold helper.UniqueElements. rewrite Hmem. set_solver.
Qed.

(** The loop over the commits neither stops nor fails at a commit without
    the file, when the trees of the commits are in the store. *)
Lemma authorsOf_spec r commits filePath authors :
  (∀ c, c ∈ commits → isOk (Commit_Tree (Storer r) c) = true) →
  gitfuncs.authorsOf r commits filePath authors =
    Ok (authors ++ map (fun c => Email (Commit.Author c))
                       (filter (fun c => containsFile (Storer r) filePath c = true) commits)).
Proof.
  revert authors. induction commits as [|c commits IH]; intros authors Htrees.
  { simpl. by rewrite app_nil_r. }
  assert (isOk (Commit_Tree (Storer r) c) = true) as Hc by (apply Htrees; by left).
  destruct (Commit_Tree (Storer r) c) as [tree|?| |] eqn:Etree; try done.
  assert (containsFile (Storer r) filePath c = isOk (Tree.File tree filePath)) as Hcf
    by (unfold containsFile; by rewrite Etree).
  cbn [gitfuncs.authorsOf]. rewrite Etree, filter_cons, Hcf. simpl.
  destruct (Tree.File tree filePath) as [f|?| |]; simpl;
    rewrite IH by (intros c' Hc'; apply Htrees; by right); [|done..].
  by rewrite <-app_assoc.
Qed.

(** C8. [GetDistinctAuthorsEMailIds] fails exactly as [RevList] fails, and
    where [RevList] returns the commits of the range it returns a list
    without duplicates that holds exactly the author emails of those
    commits whose tree has the file: a commit without the file adds
    nothing and is never what makes the call fail. *)
Theorem GetDistinctAuthorsEMailIds_spec
    (rnd : nat) (r : Repository) (beginCommit endCommit filePath : string) :
  outcome_rel
    (fun commits authors =>
       NoDup authors ∧
       ∀ email, email ∈ authors ↔
                ∃ c, c ∈ commits ∧
                     containsFile (Storer r) filePath c = true ∧
                     Email (Commit.Author c) = email)
    (gitfuncs.RevList rnd r beginCommit endCommit)
    (gitfuncs.GetDistinctAuthorsEMailIds rnd r beginCommit endCommit filePath).
Proof.
  unfold gitfuncs.GetDistinctAuthorsEMailIds.
  destruct (gitfuncs.RevList rnd r beginCommit endCommit) as [commits|?| |] eqn:HRev;
    try done.
  destruct (RevList_sound rnd r _ _ _ HRev) as (_ & _ & Htrees).
  simpl. rewrite authorsOf_spec by (intros c Hc; by apply Htrees).
  simpl. destruct (UniqueElements_spec
    (map (fun c => Email (Commit.Author c))
         (filter (fun c => containsFile (Storer r) filePath c = true) commits)))
    as [Hnd Hmem].
  split; [done|]. intros email. rewrite Hmem, list_elem_of_fmap.
  split.
  - intros (c & -> & [Hfile Hc]%list_elem_of_filter). by exists c.
  - intros (c & Hc & Hfile & <-). exists c. split; [done|]. by apply list_elem_of_filter.
Qed.

Example GetDistinctAuthorsEMailIds_runs :
  gitfuncs.RevList 0 example.repo "c2" "t0" = Ok [example.c2; example.c1;
    {| Commit.Hash := "c0"; Commit.Author := example.sig "al@x" 5;
       Commit.Committer := example.sig "al@x" 5; Commit.Message := "init";
       Commit.TreeHash := "t0"; Commit.ParentHashes := [] |}] ∧
  gitfuncs.GetDistinctAuthorsEMailIds 0 example.repo "c2" "t0" "a.txt" = Ok ["bo@x"; "al@x"] ∧
  gitfuncs.GetDistinctAuthorsEMailIds 0 example.repo "c2" "t0" "b.txt" = Ok ["bo@x"] ∧
  gitfuncs.GetDistinctAuthorsEMailIds 0 example.repo "c2" "zz" "a.txt" = Err ErrObjectNotFound.
Proof. repeat split; vm_compute; reflexivity. Qed.

(** ** Line totals and file names of a tree *)

Lemma sumZ_app l1 l2 : sumZ (l1 ++ l2) = sumZ l1 + sumZ l2.
Proof. unfold sumZ. induction l1 as [|x l1 IH]; simpl; lia. Qed.

Lemma sumZ_le (f g : string → Z) (l : list string) :
  (∀ p, f p ≤ g p) → sumZ (map f l) ≤ sumZ (map g l).
Proof.
  intros Hle. unfold sumZ. induction l as [|p l IH]; simpl; [lia|].
  specialize (Hle p). lia.
Qed.

Lemma countNonEmpty_from lines loc :
  gitfuncs.countNonEmpty lines loc = loc + gitfuncs.countNonEmpty lines 0.
Proof.
  unfold gitfuncs.countNonEmpty. revert loc.
  induction lines as [|line lines IH]; intros loc; simpl; [lia|].
  destruct (decide (line ≠ "")); [|apply IH].
  rewrite (IH (loc + 1)), (IH (0 + 1)). lia.
Qed.

Section totals.

Variable count : File.t → Z.

Lemma fold_totals (l : list (string * string)) (acc : Z * list string) :
  fold_left (fun acc f => (acc.1 + count f, acc.2 ++ [File.Name f]))
            (map File.ofEntry l) acc
  = (acc.1 + sumZ (map (fun e => count (File.ofEntry e)) l), acc.2 ++ l.*1).
Proof.
  revert acc. induction l as [|e l IH]; intros [loc files]; simpl.
  { by rewrite Z.add_0_r, app_nil_r. }
  rewrite IH. simpl. f_equal; [lia|by rewrite <-app_assoc].
Qed.

Lemma sum_of_entries (tree : Tree.t) (perFile : string → Z) :
  (∀ p c, Tree.Entries tree !! p = Some c →
          perFile p = count {| File.Name := p; File.Contents := c |}) →
  sumZ (map (fun e => count (File.ofEntry e)) (map_to_list (Tree.Entries tree)))
  = sumZ (map perFile (map_to_list (Tree.Entries tree)).*1).
Proof.
  intros Hper. f_equal. rewrite <-list_fmap_compose.
  apply list_fmap_ext. intros i [p c] Hi. simpl.
  symmetry. apply Hper. apply elem_of_map_to_list.
  by eapply list_elem_of_lookup_2.
Qed.

End totals.

Lemma tree_paths (tree : Tree.t) :
  NoDup (map_to_list (Tree.Entries tree)).*1 ∧
  ∀ p, p ∈ (map_to_list (Tree.Entries tree)).*1 ↔ is_Some (Tree.Entries tree !! p).
Proof.
  split; [apply NoDup_fst_map_to_list|]. intros p.
  rewrite list_elem_of_fmap. split.
  - intros ([q c] & -> & Hin). exists c. by apply elem_of_map_to_list.
  - intros [c Hc]. exists (p, c). split; [done|]. by apply elem_of_map_to_list.
Qed.

Lemma LOCFilesFromTree_eq tree :
  gitfuncs.LOCFilesFromTree tree =
    (sumZ (map (gitfuncs.FileLOCFromTree tree) (map_to_list (Tree.Entries tree)).*1),
     (map_to_list (Tree.Entries tree)).*1).
Proof.
  unfold gitfuncs.LOCFilesFromTree, Tree.Files.
  rewrite (fold_totals (fun f => Z.of_nat (length (File.Lines f)))).
  cbn [fst snd app]. rewrite Z.add_0_l.
  f_equal. apply (sum_of_entries (fun f => Z.of_nat (length (File.Lines f)))). intros p c Hc.
  by rewrite FileLOCFromTree_lookup, Hc.
Qed.

Lemma LOCFilesFromTreeWhitespaceExcluded_eq tree :
  gitfuncs.LOCFilesFromTreeWhitespaceExcluded tree =
    (sumZ (map (gitfuncs.FileLOCFromTreeWhitespaceExcluded tree)
               (map_to_list (Tree.Entries tree)).*1),
     (map_to_list (Tree.Entries tree)).*1).
Proof.
  unfold gitfuncs.LOCFilesFromTreeWhitespaceExcluded, Tree.Files.
  transitivity (fold_left
    (fun acc f => (acc.1 + gitfuncs.countNonEmpty (File.Lines f) 0, acc.2 ++ [File.Name f]))
    (map File.ofEntry (map_to_list (Tree.Entries tree))) (0, [])).
  { generalize (0, @nil string). generalize (map_to_list (Tree.Entries tree)).
    induction l as [|e l IH]; intros acc; simpl; [done|].
    rewrite IH. by rewrite (countNonEmpty_from _ acc.1). }
  rewrite (fold_totals (fun f => gitfuncs.countNonEmpty (File.Lines f) 0)).
  cbn [fst snd app]. rewrite Z.add_0_l.
  f_equal. apply (sum_of_entries (fun f => gitfuncs.countNonEmpty (File.Lines f) 0)). intros p c Hc.
  by rewrite FileLOCFromTreeWhitespaceExcluded_lookup, Hc.
Qed.

(** X1. The total of [LOCFilesFromTree] is the sum, over the files it
    lists, of the line count [FileLOCFromTree] gives for each; the list has
    every path of the tree, once. *)
Theorem LOCFilesFromTree_sums_files (tree : Tree.t) :
  NoDup (gitfuncs.LOCFilesFromTree tree).2 ∧
  (∀ p, p ∈ (gitfuncs.LOCFilesFromTree tree).2 ↔ is_Some (Tree.Entries tree !! p)) ∧
  Z.of_nat (length (gitfuncs.LOCFilesFromTree tree).2) = Z.of_nat (size (Tree.Entries tree)) ∧
  (gitfuncs.LOCFilesFromTree tree).1 =
    sumZ (map (gitfuncs.FileLOCFromTree tree) (gitfuncs.LOCFilesFromTree tree).2).
Proof.
  rewrite LOCFilesFromTree_eq. simpl.
  destruct (tree_paths tree) as [Hnd Hmem].
  split; [done|]. split; [done|]. split; [|done].
  by rewrite length_fmap, length_map_to_list.
Qed.

(** X2. The whitespace-excluded total is the sum of the whitespace-excluded
    counts of the same files, listed in the same order, and is between 0
    and the whitespace-included total. *)
Theorem LOCFilesFromTreeWhitespaceExcluded_sums_files (tree : Tree.t) :
  (gitfuncs.LOCFilesFromTreeWhitespaceExcluded tree).2 = (gitfuncs.LOCFilesFromTree tree).2 ∧
  (gitfuncs.LOCFilesFromTreeWhitespaceExcluded tree).1 =
    sumZ (map (gitfuncs.FileLOCFromTreeWhitespaceExcluded tree)
              (gitfuncs.LOCFilesFromTreeWhitespaceExcluded tree).2) ∧
  0 ≤ (gitfuncs.LOCFilesFromTreeWhitespaceExcluded tree).1
    ≤ (gitfuncs.LOCFilesFromTree tree).1.
Proof.
  rewrite LOCFilesFromTreeWhitespaceExcluded_eq, LOCFilesFromTree_eq. simpl.
  split; [done|]. split; [done|]. split.
  - transitivity (sumZ (map (fun _ : string => 0) (map_to_list (Tree.Entries tree)).*1)).
    + generalize ((map_to_list (Tree.Entries tree)).*1). unfold sumZ.
      induction l as [|p l IH]; simpl; lia.
    + apply sumZ_le. intros p. apply FileLOCFromTreeWhitespaceExcluded_bounds.
  - apply sumZ_le. intros p. apply FileLOCFromTreeWhitespaceExcluded_bounds.
Qed.

(** ** New and deleted files *)

Lemma fileSet_lookup files (set : gmap string bool) f :
  fold_left (fun set f => <[f := true]> set) files set !! f =
    if decide (f ∈ files) then Some true else set !! f.
Proof.
  revert set. induction files as [|g files IH]; intros set; cbn [fold_left].
  { case_decide as Hin; [by apply elem_of_nil in Hin|done]. }
  rewrite IH. repeat case_decide; try done.
  - exfalso. set_solver.
  - assert (f = g) as -> by set_solver. by rewrite lookup_insert_eq.
  - rewrite lookup_insert_ne; [done|]. set_solver.
Qed.

Lemma inSet_fileSet files f :
  metrics.inSet (metrics.fileSet files) f = bool_decide (f ∈ files).
Proof.
  unfold metrics.inSet, metrics.fileSet. rewrite fileSet_lookup, lookup_empty.
  by destruct (decide (f ∈ files)); [rewrite bool_decide_eq_true_2|rewrite bool_decide_eq_false_2].
Qed.

(** The loop counts the names of [files] that are not among [others]. *)
Lemma count_missing others files count :
  fold_left
    (fun count file =>
       if negb (metrics.inSet (metrics.fileSet others) file) then count + 1 else count)
    files count
  = count + Z.of_nat (length (filter (fun file => file ∉ others) files)).
Proof.
  revert count. induction files as [|f files IH]; intros count; simpl; [lia|].
  rewrite IH, inSet_fileSet, filter_cons.
  destruct (decide (f ∈ others)) as [Hin|Hin].
  - rewrite bool_decide_eq_true_2 by done. simpl.
    rewrite decide_False by tauto. lia.
  - rewrite bool_decide_eq_false_2 by done. simpl.
    rewrite decide_True by done. simpl. lia.
Qed.

Lemma missing_size (others files : list string) :
  NoDup files →
  length (filter (fun file => file ∉ others) files)
  = size (list_to_set files ∖ list_to_set others : gset string).
Proof.
  intros Hnd. rewrite <-(size_list_to_set (C := gset string)) by by apply NoDup_filter.
  f_equal. apply set_eq. intros x.
  rewrite elem_of_list_to_set, list_elem_of_filter, elem_of_difference,
    !elem_of_list_to_set. tauto.
Qed.

Lemma setFilesCounts_sets (beforeFiles afterFiles : list string) :
  NoDup beforeFiles → NoDup afterFiles →
  metrics.setFilesCounts beforeFiles afterFiles =
    (Z.of_nat (length afterFiles),
     Z.of_nat (size (list_to_set afterFiles ∖ list_to_set beforeFiles : gset string)),
     Z.of_nat (size (list_to_set beforeFiles ∖ list_to_set afterFiles : gset string))) ∧
  Z.of_nat (length afterFiles) - metrics.getNewFilesCount beforeFiles afterFiles =
    Z.of_nat (length beforeFiles) - metrics.getDeletedFilesCount beforeFiles afterFiles.
Proof.
  intros Hb Ha.
  assert (metrics.getNewFilesCount beforeFiles afterFiles =
          Z.of_nat (size (list_to_set afterFiles ∖ list_to_set beforeFiles : gset string)))
    as Hnew.
  { unfold metrics.getNewFilesCount. rewrite count_missing, missing_size by done. lia. }
  assert (metrics.getDeletedFilesCount beforeFiles afterFiles =
          Z.of_nat (size (list_to_set beforeFiles ∖ list_to_set afterFiles : gset string)))
    as Hdel.
  { unfold metrics.getDeletedFilesCount. rewrite count_missing, missing_size by done. lia. }
  split; [unfold metrics.setFilesCounts; by rewrite Hnew, Hdel|].
  rewrite Hnew, Hdel.
  rewrite <-(size_list_to_set (C := gset string) afterFiles) by done.
  rewrite <-(size_list_to_set (C := gset string) beforeFiles) by done.
  set (A := list_to_set afterFiles : gset string).
  set (B := list_to_set beforeFiles : gset string).
  rewrite (size_difference_alt A B), (size_difference_alt B A).
  assert (B ∩ A = A ∩ B) as -> by set_solver.
  assert (size (A ∩ B) ≤ size A)%nat by (apply subseteq_size; set_solver).
  assert (size (A ∩ B) ≤ size B)%nat by (apply subseteq_size; set_solver).
  lia.
Qed.

(** X3. On lists of names without repetition, [setFilesCounts] sets
    [FilesCount] to the number of names after, [NewFiles] to the number of
    names after that are not before, [DeletedFiles] to the number of names
    before that are not after; so the files after that are not new are as
    many as the files before that are not deleted. *)
Theorem setFilesCounts_counts (beforeFiles afterFiles : list string) :
  NoDup beforeFiles → NoDup afterFiles →
  metrics.setFilesCounts beforeFiles afterFiles =
    (Z.of_nat (length afterFiles),
     Z.of_nat (size (list_to_set afterFiles ∖ list_to_set beforeFiles : gset string)),
     Z.of_nat (size (list_to_set beforeFiles ∖ list_to_set afterFiles : gset string))) ∧
  Z.of_nat (length afterFiles) - metrics.getNewFilesCount beforeFiles afterFiles =
    Z.of_nat (length beforeFiles) - metrics.getDeletedFilesCount beforeFiles afterFiles.
Proof. apply setFilesCounts_sets. Qed.

Lemma setFilesCounts_counts_witness :
  metrics.setFilesCounts example.namesBefore example.namesAfter =
    (Z.of_nat (length example.namesAfter),
     Z.of_nat (size (list_to_set example.namesAfter ∖ list_to_set example.namesBefore
                     : gset string)),
     Z.of_nat (size (list_to_set example.namesBefore ∖ list_to_set example.namesAfter
                     : gset string))) ∧
  Z.of_nat (length example.namesAfter)
    - metrics.getNewFilesCount example.namesBefore example.namesAfter =
  Z.of_nat (length example.namesBefore)
    - metrics.getDeletedFilesCount example.namesBefore example.namesAfter.
Proof.
  apply (setFilesCounts_counts example.namesBefore example.namesAfter).
  - apply (bool_decide_unpack _). vm_compute. exact I.
  - apply (bool_decide_unpack _). vm_compute. exact I.
Defined.

Example setFilesCounts_runs :
  metrics.setFilesCounts example.namesBefore example.namesAfter = (4, 2, 1) ∧
  metrics.setFilesCounts ["a"; "a"] ["a"] = (1, 0, 0).
Proof. split; vm_compute; reflexivity. Qed.

(** ** The aggregates of a commit *)

Lemma paths_to_set (tree : Tree.t) :
  (list_to_set (map_to_list (Tree.Entries tree)).*1 : gset string) = dom (Tree.Entries tree).
Proof.
  apply set_eq. intros p. rewrite elem_of_list_to_set, elem_of_dom.
  apply tree_paths.
Qed.

Lemma tree_setFilesCounts (parentTree tree : Tree.t) :
  metrics.setFilesCounts (map_to_list (Tree.Entries parentTree)).*1
                         (map_to_list (Tree.Entries tree)).*1 =
    (Z.of_nat (size (Tree.Entries tree)),
     Z.of_nat (size (dom (Tree.Entries tree) ∖ dom (Tree.Entries parentTree) : gset string)),
     Z.of_nat (size (dom (Tree.Entries parentTree) ∖ dom (Tree.Entries tree) : gset string))) ∧
  Z.of_nat (size (Tree.Entries tree))
    - Z.of_nat (size (dom (Tree.Entries tree) ∖ dom (Tree.Entries parentTree) : gset string)) =
  Z.of_nat (size (Tree.Entries parentTree))
    - Z.of_nat (size (dom (Tree.Entries parentTree) ∖ dom (Tree.Entries tree) : gset string)).
Proof.
  destruct (setFilesCounts_sets (map_to_list (Tree.Entries parentTree)).*1
                                (map_to_list (Tree.Entries tree)).*1) as [Heq Hcons];
    [apply tree_paths..|].
  rewrite !paths_to_set, !length_fmap, !length_map_to_list in Heq.
  split; [done|].
  unfold metrics.setFilesCounts in Heq. injection Heq as _ Hnew Hdel.
  rewrite Hnew, Hdel, !length_fmap, !length_map_to_list in Hcons. done.
Qed.

Lemma AggrDiffMetricsWithWhitespace_eq Diff repo patch tree parentTree :
  gitfuncs.CommitDiff Diff repo = Ok (patch, tree, parentTree) →
  metrics.AggrDiffMetricsWithWhitespace Diff repo =
    let counts := metrics.setFilesCounts (gitfuncs.LOCFilesFromTree parentTree).2
                                         (gitfuncs.LOCFilesFromTree tree).2 in
    Ok {| metrics.AggrEmbedded :=
            {| metrics.Insertions := (metrics.sumStats (Stats patch)).1;
               metrics.Deletions := (metrics.sumStats (Stats patch)).2;
               metrics.LinesBefore := (gitfuncs.LOCFilesFromTree parentTree).1;
               metrics.LinesAfter := (gitfuncs.LOCFilesFromTree tree).1 |};
          metrics.FilesCount := counts.1.1;
          metrics.NewFiles := counts.1.2;
          metrics.DeletedFiles := counts.2 |}.
Proof.
  intros Hdiff. unfold metrics.AggrDiffMetricsWithWhitespace. rewrite Hdiff.
  cbn [mbind outcome_bind].
  destruct (metrics.sumStats (Stats patch)) as [additions deletions].
  destruct (gitfuncs.LOCFilesFromTree parentTree) as [linesBefore beforeFiles].
  destruct (gitfuncs.LOCFilesFromTree tree) as [linesAfter afterFiles].
  cbn [fst snd].
  by destruct (metrics.setFilesCounts beforeFiles afterFiles) as [[filesCount newFiles] deletedFiles].
Qed.

Lemma AggrDiffMetricsWhitespaceExcluded_eq Diff repo patch tree parentTree :
  gitfuncs.CommitDiff Diff repo = Ok (patch, tree, parentTree) →
  metrics.AggrDiffMetricsWhitespaceExcluded Diff repo =
    counted ← metrics.aggrTextsLoop
                (tail (strings.Split (PatchString patch) "diff --git a/")) (0, 0);
    let counts := metrics.setFilesCounts
                    (gitfuncs.LOCFilesFromTreeWhitespaceExcluded parentTree).2
                    (gitfuncs.LOCFilesFromTreeWhitespaceExcluded tree).2 in
    Ok {| metrics.AggrEmbedded :=
            {| metrics.Insertions := counted.1;
               metrics.Deletions := counted.2;
               metrics.LinesBefore := (gitfuncs.LOCFilesFromTreeWhitespaceExcluded parentTree).1;
               metrics.LinesAfter := (gitfuncs.LOCFilesFromTreeWhitespaceExcluded tree).1 |};
          metrics.FilesCount := counts.1.1;
          metrics.NewFiles := counts.1.2;
          metrics.DeletedFiles := counts.2 |}.
Proof.
  intros Hdiff. unfold metrics.AggrDiffMetricsWhitespaceExcluded. rewrite Hdiff.
  cbn [mbind outcome_bind].
  destruct (metrics.aggrTextsLoop _ _) as [[insertions deletions]|?| |]; try done.
  destruct (gitfuncs.LOCFilesFromTreeWhitespaceExcluded parentTree) as [linesBefore beforeFiles].
  destruct (gitfuncs.LOCFilesFromTreeWhitespaceExcluded tree) as [linesAfter afterFiles].
  cbn [fst snd].
  by destruct (metrics.setFilesCounts beforeFiles afterFiles) as [[filesCount newFiles] deletedFiles].
Qed.

(** X4. In the aggregate of a commit, computed either way, [FilesCount] is
    the number of files of the commit's tree, [NewFiles] the number of its
    paths that the parent tree does not have, [DeletedFiles] the number of
    paths of the parent tree that it does not have; the files that are not
    new are as many as the parent's files that are not deleted. *)
Theorem Aggr_file_counts
    (Diff : Tree.t → Tree.t → Patch) (repo : Repository)
    (patch : Patch) (tree parentTree : Tree.t) (m : metrics.AggrDiffMetrics) :
  gitfuncs.CommitDiff Diff repo = Ok (patch, tree, parentTree) →
  metrics.AggrDiffMetricsWithWhitespace Diff repo = Ok m ∨
  metrics.AggrDiffMetricsWhitespaceExcluded Diff repo = Ok m →
  metrics.FilesCount m = Z.of_nat (size (Tree.Entries tree)) ∧
  metrics.NewFiles m =
    Z.of_nat (size (dom (Tree.Entries tree) ∖ dom (Tree.Entries parentTree) : gset string)) ∧
  metrics.DeletedFiles m =
    Z.of_nat (size (dom (Tree.Entries parentTree) ∖ dom (Tree.Entries tree) : gset string)) ∧
  metrics.FilesCount m - metrics.NewFiles m =
    Z.of_nat (size (Tree.Entries parentTree)) - metrics.DeletedFiles m.
Proof.
  intros Hdiff H.
  destruct (tree_setFilesCounts parentTree tree) as [Hset Hcons].
  destruct H as [H|H].
  - rewrite (AggrDiffMetricsWithWhitespace_eq _ _ _ _ _ Hdiff) in H.
    rewrite !LOCFilesFromTree_eq in H. cbn [fst snd] in H. rewrite Hset in H.
    injection H as <-. done.
  - rewrite (AggrDiffMetricsWhitespaceExcluded_eq _ _ _ _ _ Hdiff) in H.
    destruct (metrics.aggrTextsLoop _ _) as [counted|?| |]; try done.
    cbn [mbind outcome_bind] in H.
    rewrite !LOCFilesFromTreeWhitespaceExcluded_eq in H. cbn [fst snd] in H.
    rewrite Hset in H. injection H as <-. done.
Qed.

Lemma Aggr_file_counts_witness :
  ∃ m,
    metrics.AggrDiffMetricsWhitespaceExcluded example.Diff example.repo = Ok m ∧
    metrics.FilesCount m = Z.of_nat (size (Tree.Entries example.tree2)) ∧
    metrics.NewFiles m =
      Z.of_nat (size (dom (Tree.Entries example.tree2) ∖ dom (Tree.Entries example.tree1)
                      : gset string)) ∧
    metrics.DeletedFiles m =
      Z.of_nat (size (dom (Tree.Entries example.tree1) ∖ dom (Tree.Entries example.tree2)
                      : gset string)) ∧
    metrics.FilesCount m - metrics.NewFiles m =
      Z.of_nat (size (Tree.Entries example.tree1)) - metrics.DeletedFiles m.
Proof.
  eexists. split; [vm_compute; reflexivity|].
  apply (Aggr_file_counts example.Diff example.repo example.patch
           example.tree2 example.tree1).
  - vm_compute. reflexivity.
  - right. vm_compute. reflexivity.
Defined.

Lemma sumStats_from diffStats (acc : Z * Z) :
  fold_left (fun acc value => (acc.1 + Addition value, acc.2 + Deletion value)) diffStats acc
  = (acc.1 + sumZ (map Addition diffStats), acc.2 + sumZ (map Deletion diffStats)).
Proof.
  revert acc. induction diffStats as [|value diffStats IH]; intros [a d]; simpl.
  { f_equal; lia. }
  rewrite IH. simpl. f_equal; lia.
Qed.

Lemma statsOf_from_absent diffStats filePath acc :
  filePath ∉ map StatName diffStats →
  fold_left
    (fun acc value =>
       if decide (StatName value = filePath) then (Addition value, Deletion value) else acc)
    diffStats acc = acc.
Proof.
  revert acc. induction diffStats as [|value diffStats IH]; intros acc Habs; [done|].
  simpl in *. apply not_elem_of_cons in Habs as [Hne Habs].
  rewrite decide_False by done. by apply IH.
Qed.

(** With one entry per name, the entry of a name is what [statsOf] finds. *)
Lemma statsOf_present diffStats value :
  NoDup (map StatName diffStats) → value ∈ diffStats →
  metrics.statsOf diffStats (StatName value) = (Addition value, Deletion value).
Proof.
  unfold metrics.statsOf. generalize (0, 0).
  induction diffStats as [|v diffStats IH]; intros acc Hnd Hin.
  { by apply elem_of_nil in Hin. }
  simpl in Hnd. apply NoDup_cons in Hnd as [Hv Hnd]. simpl.
  apply elem_of_cons in Hin as [<-|Hin].
  - rewrite decide_True by done. by apply statsOf_from_absent.
  - rewrite decide_False; [by apply IH|].
    intros Heq. apply Hv. rewrite Heq. apply list_elem_of_fmap. by exists value.
Qed.

Lemma CalculateDiffMetricsWithWhitespace_eq Diff repo patch tree parentTree filePath :
  gitfuncs.CommitDiff Diff repo = Ok (patch, tree, parentTree) →
  metrics.CalculateDiffMetricsWithWhitespace Diff repo filePath =
    let linesBefore := gitfuncs.FileLOCFromTree parentTree filePath in
    let linesAfter := gitfuncs.FileLOCFromTree tree filePath in
    Ok {| metrics.Embedded :=
            {| metrics.Insertions := (metrics.statsOf (Stats patch) filePath).1;
               metrics.Deletions := (metrics.statsOf (Stats patch) filePath).2;
               metrics.LinesBefore := linesBefore;
               metrics.LinesAfter := linesAfter |};
          metrics.File := filePath;
          metrics.NewFile := (metrics.flags linesBefore linesAfter).1;
          metrics.DeleteFile := (metrics.flags linesBefore linesAfter).2 |}.
Proof.
  intros Hdiff. unfold metrics.CalculateDiffMetricsWithWhitespace. rewrite Hdiff.
  cbn [mbind outcome_bind].
  by destruct (metrics.statsOf (Stats patch) filePath) as [insertions deletions].
Qed.

(** X5. When the stats of the patch have one entry per file name, the
    aggregate of a commit is the sum of the metrics of its files:
    insertions and deletions over the names of the stats, lines before over
    the files of the parent tree, lines after over the files of the
    commit's tree, each file measured by
    [CalculateDiffMetricsWithWhitespace]. *)
Theorem Aggr_sums_file_metrics
    (Diff : Tree.t → Tree.t → Patch) (repo : Repository)
    (patch : Patch) (tree parentTree : Tree.t) :
  gitfuncs.CommitDiff Diff repo = Ok (patch, tree, parentTree) →
  NoDup (map StatName (Stats patch)) →
  ∃ (m : metrics.AggrDiffMetrics) (file : string → metrics.FileDiffMetrics),
    metrics.AggrDiffMetricsWithWhitespace Diff repo = Ok m ∧
    (∀ p, metrics.CalculateDiffMetricsWithWhitespace Diff repo p = Ok (file p)) ∧
    metrics.Insertions (metrics.AggrEmbedded m) =
      sumZ (map (fun p => metrics.Insertions (metrics.Embedded (file p))) (map StatName (Stats patch))) ∧
    metrics.Deletions (metrics.AggrEmbedded m) =
      sumZ (map (fun p => metrics.Deletions (metrics.Embedded (file p))) (map StatName (Stats patch))) ∧
    metrics.LinesBefore (metrics.AggrEmbedded m) =
      sumZ (map (fun p => metrics.LinesBefore (metrics.Embedded (file p))) (gitfuncs.LOCFilesFromTree parentTree).2) ∧
    metrics.LinesAfter (metrics.AggrEmbedded m) =
      sumZ (map (fun p => metrics.LinesAfter (metrics.Embedded (file p))) (gitfuncs.LOCFilesFromTree tree).2).
Proof.
  intros Hdiff Hnd.
  rewrite (AggrDiffMetricsWithWhitespace_eq _ _ _ _ _ Hdiff).
  eexists. eexists. split; [reflexivity|]. split.
  { intros p. apply (CalculateDiffMetricsWithWhitespace_eq _ _ _ _ _ p Hdiff). }
  cbn [metrics.Embedded].
  cbn [metrics.AggrEmbedded metrics.Insertions metrics.Deletions
       metrics.LinesBefore metrics.LinesAfter].
  unfold metrics.sumStats. rewrite sumStats_from. cbn [fst snd].
  rewrite !LOCFilesFromTree_eq. cbn [fst snd].
  assert (∀ g : Z * Z → Z,
            map (fun p => g (metrics.statsOf (Stats patch) p)) (map StatName (Stats patch))
            = map (fun value => g (Addition value, Deletion value)) (Stats patch)) as Hmap.
  { intros g. rewrite <-list_fmap_compose. apply list_fmap_ext. intros i value Hi.
    simpl. rewrite statsOf_present; [done..|]. by eapply list_elem_of_lookup_2. }
  rewrite (Hmap fst), (Hmap snd). simpl. repeat split; try done.
Qed.

Lemma Aggr_sums_file_metrics_witness :
  ∃ (m : metrics.AggrDiffMetrics) (file : string → metrics.FileDiffMetrics),
    metrics.AggrDiffMetricsWithWhitespace example.Diff example.repo = Ok m ∧
    (∀ p, metrics.CalculateDiffMetricsWithWhitespace example.Diff example.repo p
          = Ok (file p)) ∧
    metrics.Insertions (metrics.AggrEmbedded m) =
      sumZ (map (fun p => metrics.Insertions (metrics.Embedded (file p))) (map StatName (Stats example.patch))) ∧
    metrics.Deletions (metrics.AggrEmbedded m) =
      sumZ (map (fun p => metrics.Deletions (metrics.Embedded (file p))) (map StatName (Stats example.patch))) ∧
    metrics.LinesBefore (metrics.AggrEmbedded m) =
      sumZ (map (fun p => metrics.LinesBefore (metrics.Embedded (file p)))
                (gitfuncs.LOCFilesFromTree example.tree1).2) ∧
    metrics.LinesAfter (metrics.AggrEmbedded m) =
      sumZ (map (fun p => metrics.LinesAfter (metrics.Embedded (file p)))
                (gitfuncs.LOCFilesFromTree example.tree2).2).
Proof.
  apply (Aggr_sums_file_metrics example.Diff example.repo example.patch
           example.tree2 example.tree1).
  - vm_compute. reflexivity.
  - apply (bool_decide_unpack _). vm_compute. exact I.
Defined.

(** ** A commit without parent *)

Lemma CheckIfError_isOk {A} (x : outcome A) : isOk (CheckIfError x) = isOk x.
Proof. by destruct x. Qed.

(** X6. When HEAD is a commit without parent, [CommitDiff] returns nothing:
    the parent is asked for before any tree is read, and there is none.
    Nor does any function that starts from [CommitDiff] return: the deleted
    lines, the file metrics and the aggregates of a root commit are not
    computed, in either variant. *)
Theorem root_commit_no_result
    (Diff : Tree.t → Tree.t → Patch) (repo : Repository) (head : string)
    (commitObj : Commit.t) (filePath : string) :
  HEAD repo = Some head →
  CommitObject repo head = Ok commitObj →
  Commit.ParentHashes commitObj = [] →
  isOk (gitfuncs.CommitDiff Diff repo) = false ∧
  isOk (gitfuncs.DeletedLineNumbers Diff repo) = false ∧
  isOk (gitfuncs.DeletedLineNumbersWhitespaceExcluded Diff repo) = false ∧
  isOk (metrics.CalculateDiffMetricsWithWhitespace Diff repo filePath) = false ∧
  isOk (metrics.CalculateDiffMetricsWhitespaceExcluded Diff repo filePath) = false ∧
  isOk (metrics.AggrDiffMetricsWithWhitespace Diff repo) = false ∧
  isOk (metrics.AggrDiffMetricsWhitespaceExcluded Diff repo) = false.
Proof.
  intros Hhead Hcommit Hparents.
  assert (isOk (gitfuncs.CommitDiff Diff repo) = false) as Hdiff.
  { unfold gitfuncs.CommitDiff, Head. rewrite Hhead. cbn [CheckIfError mbind outcome_bind].
    rewrite Hcommit. cbn [CheckIfError mbind outcome_bind].
    pose proof (CheckIfError_isOk (Commit_Parent (Storer repo) commitObj 0)) as Hparent.
    unfold Commit_Parent in Hparent |- *. rewrite Hparents in Hparent |- *.
    by destruct (CheckIfError _). }
  unfold gitfuncs.DeletedLineNumbers, gitfuncs.DeletedLineNumbersWhitespaceExcluded,
    metrics.CalculateDiffMetricsWithWhitespace, metrics.CalculateDiffMetricsWhitespaceExcluded,
    metrics.AggrDiffMetricsWithWhitespace, metrics.AggrDiffMetricsWhitespaceExcluded.
  destruct (gitfuncs.CommitDiff Diff repo) as [[[patch tree] parentTree]|?| |];
    [discriminate Hdiff| | |]; repeat split; reflexivity.
Qed.

Lemma root_commit_no_result_witness :
  isOk (gitfuncs.CommitDiff example.Diff example.rootRepo) = false ∧
  isOk (gitfuncs.DeletedLineNumbers example.Diff example.rootRepo) = false ∧
  isOk (gitfuncs.DeletedLineNumbersWhitespaceExcluded example.Diff example.rootRepo) = false ∧
  isOk (metrics.CalculateDiffMetricsWithWhitespace example.Diff example.rootRepo "a.txt")
    = false ∧
  isOk (metrics.CalculateDiffMetricsWhitespaceExcluded example.Diff example.rootRepo "a.txt")
    = false ∧
  isOk (metrics.AggrDiffMetricsWithWhitespace example.Diff example.rootRepo) = false ∧
  isOk (metrics.AggrDiffMetricsWhitespaceExcluded example.Diff example.rootRepo) = false.
Proof.
  apply (root_commit_no_result example.Diff example.rootRepo "c0"
           {| Commit.Hash := "c0"; Commit.Author := example.sig "al@x" 5;
              Commit.Committer := example.sig "al@x" 5; Commit.Message := "init";
              Commit.TreeHash := "t0"; Commit.ParentHashes := [] |}).
  - reflexivity.
  - vm_compute. reflexivity.
  - reflexivity.
Defined.

(** ** Inserted text and deleted lines *)

Lemma DeletedLineNumbers_chunks_without_Add chunks lineCounter deletedLines :
  gitfuncs.DeletedLineNumbers_chunks chunks lineCounter deletedLines =
  gitfuncs.DeletedLineNumbers_chunks (filter (fun c => Type_ c ≠ Add) chunks)
    lineCounter deletedLines.
Proof.
  revert lineCounter deletedLines.
  induction chunks as [|[ty c] chunks IH]; intros lc dl; [done|].
  rewrite filter_cons. destruct ty; simpl.
  - destruct (gitfuncs.chunkLines c); simpl; [apply IH|done..].
  - apply IH.
  - destruct (gitfuncs.chunkLines c); simpl; [apply IH|done..].
Qed.

Lemma DeletedLineNumbersWhitespaceExcluded_chunks_without_Add chunks lineCounter deletedLines :
  gitfuncs.DeletedLineNumbersWhitespaceExcluded_chunks chunks lineCounter deletedLines =
  gitfuncs.DeletedLineNumbersWhitespaceExcluded_chunks (filter (fun c => Type_ c ≠ Add) chunks)
    lineCounter deletedLines.
Proof.
  revert lineCounter deletedLines.
  induction chunks as [|[ty c] chunks IH]; intros lc dl; [done|].
  rewrite filter_cons. destruct ty; simpl.
  - destruct (gitfuncs.chunkLines c); simpl; [apply IH|done..].
  - apply IH.
  - destruct (gitfuncs.chunkLines c); simpl; [|done..].
    destruct (gitfuncs.deletedNonEmpty _ _ _ _); simpl; [apply IH|done..].
Qed.

(** X7. The chunks of inserted text have no part in the deleted line
    numbers: both loops give the same outcome with the Add chunks taken
    out, whatever their content, the empty one too; a file patch that only
    adds text has no deleted line. *)
Theorem deleted_lines_ignore_Add (chunks : list Chunk) :
  gitfuncs.DeletedLineNumbers_chunks chunks 0 [] =
    gitfuncs.DeletedLineNumbers_chunks (filter (fun c => Type_ c ≠ Add) chunks) 0 [] ∧
  gitfuncs.DeletedLineNumbersWhitespaceExcluded_chunks chunks 0 [] =
    gitfuncs.DeletedLineNumbersWhitespaceExcluded_chunks
      (filter (fun c => Type_ c ≠ Add) chunks) 0 [] ∧
  (Forall (fun c => Type_ c = Add) chunks →
   gitfuncs.DeletedLineNumbers_chunks chunks 0 [] = Ok [] ∧
   gitfuncs.DeletedLineNumbersWhitespaceExcluded_chunks chunks 0 [] = Ok []).
Proof.
  split; [apply DeletedLineNumbers_chunks_without_Add|].
  split; [apply DeletedLineNumbersWhitespaceExcluded_chunks_without_Add|].
  intros Hadd.
  assert (filter (fun c => Type_ c ≠ Add) chunks = []) as Hnil.
  { induction Hadd as [|c chunks Hc _ IH]; [done|].
    rewrite filter_cons, decide_False by (by rewrite Hc; intros ?). exact IH. }
  rewrite DeletedLineNumbers_chunks_without_Add,
    DeletedLineNumbersWhitespaceExcluded_chunks_without_Add, Hnil. done.
Qed.

(** ** What [CommitDiff] reads *)

Lemma CheckIfError_Ok {A} (x : outcome A) a : CheckIfError x = Ok a → x = Ok a.
Proof. by destruct x. Qed.

(** X8. [CommitDiff] returns exactly when HEAD names a commit of the store
    that has a first parent in the store, and the trees of the two are in
    the store; it returns these two trees and the backend's patch from the
    parent's tree to the commit's. Further parents of a merge commit are
    not read. *)
Theorem CommitDiff_first_parent
    (Diff : Tree.t → Tree.t → Patch) (repo : Repository)
    (patch : Patch) (tree parentTree : Tree.t) :
  gitfuncs.CommitDiff Diff repo = Ok (patch, tree, parentTree) ↔
  ∃ head commitObj parentHash otherParents parentCommitObj,
    HEAD repo = Some head ∧
    CommitObject repo head = Ok commitObj ∧
    Commit.ParentHashes commitObj = parentHash :: otherParents ∧
    CommitObject repo parentHash = Ok parentCommitObj ∧
    GetTree (Storer repo) (Commit.TreeHash commitObj) = Ok tree ∧
    GetTree (Storer repo) (Commit.TreeHash parentCommitObj) = Ok parentTree ∧
    patch = Diff parentTree tree.
Proof.
  unfold gitfuncs.CommitDiff, Head, Commit_Parent, Commit_Tree. split.
  - intros H.
    destruct (HEAD repo) as [head|]; [|done]. cbn [CheckIfError mbind outcome_bind] in H.
    destruct (CommitObject repo head) as [commitObj|?| |] eqn:Hc; try done.
    cbn [CheckIfError mbind outcome_bind] in H.
    destruct (Commit.ParentHashes commitObj) as [|parentHash others] eqn:Hp; [done|].
    cbn [lookup list_lookup] in H. unfold CommitObject.
    destruct (GetCommit (Storer repo) parentHash) as [parentCommitObj|?| |] eqn:Hpc;
      try done.
    cbn [CheckIfError mbind outcome_bind] in H.
    destruct (GetTree (Storer repo) (Commit.TreeHash commitObj)) as [t|?| |] eqn:Ht;
      try done.
    cbn [CheckIfError mbind outcome_bind] in H.
    destruct (GetTree (Storer repo) (Commit.TreeHash parentCommitObj)) as [pt|?| |] eqn:Hpt;
      try done.
    cbn [CheckIfError mbind outcome_bind] in H. injection H as <- <- <-.
    by exists head, commitObj, parentHash, others, parentCommitObj.
  - intros (head & commitObj & parentHash & others & parentCommitObj
            & Hh & Hc & Hp & Hpc & Ht & Hpt & ->).
    rewrite Hh. cbn [CheckIfError mbind outcome_bind].
    rewrite Hc. cbn [CheckIfError mbind outcome_bind].
    rewrite Hp. cbn [lookup list_lookup].
    unfold CommitObject in Hpc. rewrite Hpc. cbn [CheckIfError mbind outcome_bind].
    rewrite Ht. cbn [CheckIfError mbind outcome_bind]. rewrite Hpt. done.
Qed.

(** ** The keys of the deleted-lines map *)

Lemma filePatchesLoop_keys perFile patches (m0 m : gmap string (list Z)) :
  gitfuncs.filePatchesLoop perFile patches m0 = Ok m →
  ∀ p, is_Some (m !! p) ↔
       is_Some (m0 !! p) ∨ ∃ patch, patch ∈ patches ∧ gitfuncs.patchKey patch = Ok p.
Proof.
  revert m0. induction patches as [|patch patches IH]; intros m0 H p; simpl in H.
  { injection H as <-. split; [auto|]. intros [?|(? & ?%elem_of_nil & _)]; done. }
  destruct (perFile (Chunks patch) 0 []) as [dl|?| |]; try done. simpl in H.
  destruct (gitfuncs.patchKey patch) as [key|?| |] eqn:K; try done. simpl in H.
  rewrite (IH _ H p), lookup_insert. split.
  - intros [Hin|(patch' & Hin & HK)].
    + case_decide as Hkey; [|by left]. subst key. right. exists patch. split; [by left|done].
    + right. exists patch'. split; [by right|done].
  - intros [Hin|(patch' & [->|Hin]%elem_of_cons & HK)].
    + left. case_decide; [by eexists|done].
    + left. rewrite K in HK. injection HK as ->. rewrite decide_True by done. by eexists.
    + right. by exists patch'.
Qed.

(** X9. When [DeletedLineNumbers] returns, the map has an entry, possibly
    the empty list, for exactly the paths that the file patches of the
    commit are stored under (the old path of a renamed file, the path of a
    new one), and the string is the hash of the parent's tree. The same
    holds of the whitespace-excluded variant. *)
Theorem DeletedLineNumbers_keys
    (Diff : Tree.t → Tree.t → Patch) (repo : Repository)
    (m : gmap string (list Z)) (parentHash : string) :
  gitfuncs.DeletedLineNumbers Diff repo = Ok (m, parentHash) ∨
  gitfuncs.DeletedLineNumbersWhitespaceExcluded Diff repo = Ok (m, parentHash) →
  ∃ patch tree parentTree,
    gitfuncs.CommitDiff Diff repo = Ok (patch, tree, parentTree) ∧
    parentHash = Tree.Hash parentTree ∧
    ∀ p, is_Some (m !! p) ↔
         ∃ file, file ∈ FilePatches patch ∧ gitfuncs.patchKey file = Ok p.
Proof.
  unfold gitfuncs.DeletedLineNumbers, gitfuncs.DeletedLineNumbersWhitespaceExcluded.
  destruct (gitfuncs.CommitDiff Diff repo) as [[[patch tree] parentTree]|?| |];
    [|by intros [?|?]..].
  cbn [mbind outcome_bind]. intros H.
  exists patch, tree, parentTree. split; [done|].
  assert (∃ perFile, gitfuncs.filePatchesLoop perFile (FilePatches patch) ∅ = Ok m
                     ∧ parentHash = Tree.Hash parentTree) as (perFile & Hloop & ->).
  { destruct H as [H|H];
      destruct (gitfuncs.filePatchesLoop _ _ _) as [m'|?| |] eqn:E; try done;
      injection H as <- <-; eauto. }
  split; [done|]. intros p.
  rewrite (filePatchesLoop_keys _ _ _ _ Hloop p), lookup_empty.
  split; [intros [[? ?]|?]; done|auto].
Qed.

Lemma DeletedLineNumbers_keys_witness :
  ∃ m parentHash patch tree parentTree,
    gitfuncs.DeletedLineNumbers example.Diff example.repo = Ok (m, parentHash) ∧
    gitfuncs.CommitDiff example.Diff example.repo = Ok (patch, tree, parentTree) ∧
    parentHash = Tree.Hash parentTree ∧
    ∀ p, is_Some (m !! p) ↔
         ∃ file, file ∈ FilePatches patch ∧ gitfuncs.patchKey file = Ok p.
Proof.
  eexists. eexists.
  assert (∀ (P : Patch → Tree.t → Tree.t → Prop) x,
            (∃ patch tree parentTree, P patch tree parentTree) →
            x → ∃ patch tree parentTree, x ∧ P patch tree parentTree) as Hshape
    by (intros P x (a & b & c & ?) ?; by exists a, b, c).
  apply Hshape; [|vm_compute; reflexivity].
  apply (DeletedLineNumbers_keys example.Diff example.repo).
  left. vm_compute. reflexivity.
Defined.

(** ** New and deleted files, by the contents of the trees *)

Lemma countNewlines_lastByte s :
  strings.countNewlines s = 0%nat → strings.lastByte s ≠ Some strings.newline.
Proof.
  intros H0 Hlast. apply lastByte_newline_count in Hlast. lia.
Qed.

(** A file has no line exactly when it is empty. *)
Lemma Lines_none name c :
  length (File.Lines {| File.Name := name; File.Contents := c |}) = 0%nat ↔ c = "".
Proof.
  rewrite length_Lines. split.
  - case_decide as H; [|done]. intros H0. destruct H as [?|Hlast]; [done|].
    by apply countNewlines_lastByte in H0.
  - intros ->. by rewrite decide_True by auto.
Qed.

Lemma FileLOCFromTree_zero tree path :
  gitfuncs.FileLOCFromTree tree path = 0 ↔ ¬ hasContent tree path.
Proof.
  rewrite FileLOCFromTree_lookup. unfold hasContent.
  destruct (Tree.Entries tree !! path) as [c|] eqn:E.
  - pose proof (Lines_none path c) as Hnone. split.
    + intros H0 (c' & [= <-] & Hne). apply Hne, Hnone. lia.
    + intros Hno. destruct (decide (c = "")) as [->|Hne].
      * apply proj2 in Hnone. rewrite Hnone; done.
      * exfalso. apply Hno. by exists c.
  - split; [|done]. by intros _ (c & ? & _).
Qed.

(** X10. [CalculateDiffMetricsWithWhitespace] reports a new file exactly
    when the commit's tree has a file with content at the path and the
    parent's tree has none, taking an empty file for none; and a deleted
    file in the converse case. So a new file that is empty is not reported
    as new, and an empty file that receives content is. *)
Theorem new_file_by_content
    (Diff : Tree.t → Tree.t → Patch) (repo : Repository) (filePath : string)
    (patch : Patch) (tree parentTree : Tree.t) :
  gitfuncs.CommitDiff Diff repo = Ok (patch, tree, parentTree) →
  ∃ m,
    metrics.CalculateDiffMetricsWithWhitespace Diff repo filePath = Ok m ∧
    (metrics.NewFile m = true ↔
       ¬ hasContent parentTree filePath ∧ hasContent tree filePath) ∧
    (metrics.DeleteFile m = true ↔
       hasContent parentTree filePath ∧ ¬ hasContent tree filePath).
Proof.
  intros Hdiff. rewrite (CalculateDiffMetricsWithWhitespace_eq _ _ _ _ _ filePath Hdiff).
  eexists. split; [reflexivity|].
  cbn [metrics.NewFile metrics.DeleteFile]. unfold metrics.flags. cbn [fst snd].
  rewrite !bool_decide_eq_true, !FileLOCFromTree_zero.
  assert (∀ t, Decision (hasContent t filePath)) as Hdec.
  { intros t. unfold hasContent. destruct (Tree.Entries t !! filePath) as [c|].
    - destruct (decide (c = "")) as [->|Hne].
      + right. by intros (c' & [= <-] & ?).
      + left. by exists c.
    - right. by intros (c & ? & _). }
  destruct (Hdec tree), (Hdec parentTree); tauto.
Qed.

Lemma new_file_by_content_witness :
  ∃ m,
    metrics.CalculateDiffMetricsWithWhitespace example.Diff example.repo "b.txt" = Ok m ∧
    (metrics.NewFile m = true ↔
       ¬ hasContent example.tree1 "b.txt" ∧ hasContent example.tree2 "b.txt") ∧
    (metrics.DeleteFile m = true ↔
       hasContent example.tree1 "b.txt" ∧ ¬ hasContent example.tree2 "b.txt").
Proof.
  apply (new_file_by_content example.Diff example.repo "b.txt" example.patch).
  vm_compute. reflexivity.
Defined.

(** ** Splitting a text on a marker *)

Lemma HasPrefix_occurs s prefix :
  strings.HasPrefix s prefix = true ↔ ∃ b, s = prefix +:+ b.
Proof.
  revert s. induction prefix as [|p prefix IH]; intros s; simpl.
  { split; [by exists s|done]. }
  destruct s as [|c s]; [split; [done|by intros (b & ?)]|].
  destruct (decide (c = p)) as [->|Hne].
  - rewrite IH. split; intros (b & Hb); exists b.
    + by rewrite Hb.
    + change (String p prefix +:+ b) with (String p (prefix +:+ b)) in Hb. congruence.
  - split; [done|]. intros (b & Hb).
    change (String p prefix +:+ b) with (String p (prefix +:+ b)) in Hb. congruence.
Qed.

Lemma splitFrom_length sep skip s : (1 ≤ length (strings.splitFrom sep skip s))%nat.
Proof.
  revert skip. induction s as [|c s IH]; intros skip; simpl; [lia|].
  destruct skip as [|k]; [|apply IH].
  destruct (strings.HasPrefix _ _); simpl; [lia|].
  specialize (IH 0%nat). destruct (strings.splitFrom sep 0 s); simpl in *; lia.
Qed.

(** The split has a single piece exactly when the separator does not
    occur. *)
Lemma Split_single s sep :
  sep ≠ "" → (length (strings.Split s sep) < 2)%nat ↔ ¬ occursIn sep s.
Proof.
  intros Hsep. unfold strings.Split. destruct sep as [|c0 sep']; [done|].
  set (sep := String c0 sep').
  assert (sep_ne : ∀ a b, a +:+ sep +:+ b ≠ "") by (by intros [|? ?] b).
  clearbody sep. clear Hsep. induction s as [|c s IH].
  { simpl. split; [|lia]. intros _ (a & b & Hab). by eapply sep_ne. }
  simpl. destruct (strings.HasPrefix (String c s) sep) eqn:Hpre.
  - pose proof (splitFrom_length sep (String.length sep - 1) s). simpl.
    split; [lia|]. intros Hno. exfalso. apply Hno.
    apply HasPrefix_occurs in Hpre as (b & Hb). by exists "", b.
  - assert (length (match strings.splitFrom sep 0 s with
                    | [] => [String c ""]
                    | p :: ps => String c p :: ps
                    end) = length (strings.splitFrom sep 0 s)) as ->.
    { pose proof (splitFrom_length sep 0 s).
      destruct (strings.splitFrom sep 0 s); simpl in *; [lia|done]. }
    rewrite IH. split.
    + intros Hno (a & b & Hab). destruct a as [|a0 a].
      * assert (strings.HasPrefix (String c s) sep = true) as Hyes
          by (apply HasPrefix_occurs; by exists b).
        congruence.
      * apply Hno. exists a, b.
        change (String a0 a +:+ sep +:+ b) with (String a0 (a +:+ sep +:+ b)) in Hab.
        congruence.
    + intros Hno (a & b & Hab). apply Hno. exists (String c a), b.
      change (String c a +:+ sep +:+ b) with (String c (a +:+ sep +:+ b)). by rewrite Hab.
Qed.

Lemma index_1_Panic s sep :
  sep ≠ "" → metrics.index (strings.Split s sep) 1 = Panic ↔ ¬ occursIn sep s.
Proof.
  intros Hsep. rewrite <-(Split_single s sep Hsep). unfold metrics.index.
  destruct (strings.Split s sep) as [|p [|q ps]]; simpl; split; try done; lia.
Qed.

Lemma index_1_result {A} (l : list A) :
  isOk (metrics.index l 1) = true ∨ metrics.index l 1 = Panic.
Proof. unfold metrics.index. destruct (l !! 1%nat); auto. Qed.

Lemma index_0_Split s sep :
  sep ≠ "" → isOk (metrics.index (strings.Split s sep) 0) = true.
Proof.
  intros Hsep. unfold strings.Split. destruct sep as [|c0 sep']; [done|].
  pose proof (splitFrom_length (String c0 sep') 0 s).
  unfold metrics.index. destruct (strings.splitFrom _ _ _); simpl in *; [lia|done].
Qed.

(** ** The metrics read from the text of the patch *)

Lemma marker_nonempty filePath : "diff --git a/" +:+ filePath ≠ "".
Proof. done. Qed.

(** X11. [CalculateDiffMetricsWhitespaceExcluded] returns its error, that
    the file was not found, exactly when the text [diff --git a/] followed
    by the path does not occur in the text of the patch; when it occurs the
    call returns metrics or panics, and never returns an error. *)
Theorem CalculateDiffMetricsWhitespaceExcluded_not_found
    (Diff : Tree.t → Tree.t → Patch) (repo : Repository) (filePath : string)
    (patch : Patch) (tree parentTree : Tree.t) :
  gitfuncs.CommitDiff Diff repo = Ok (patch, tree, parentTree) →
  (metrics.CalculateDiffMetricsWhitespaceExcluded Diff repo filePath =
     Err (ErrorNew ("File: " +:+ filePath +:+ " not found in the given commitHash"))
   ↔ ¬ occursIn ("diff --git a/" +:+ filePath) (PatchString patch)) ∧
  (occursIn ("diff --git a/" +:+ filePath) (PatchString patch) →
   isOk (metrics.CalculateDiffMetricsWhitespaceExcluded Diff repo filePath) = true ∨
   metrics.CalculateDiffMetricsWhitespaceExcluded Diff repo filePath = Panic).
Proof.
  intros Hdiff. unfold metrics.CalculateDiffMetricsWhitespaceExcluded. rewrite Hdiff.
  cbn [mbind outcome_bind].
  pose proof (Split_single (PatchString patch) _ (marker_nonempty filePath)) as Hsingle.
  destruct (decide (length _ < 2)%nat) as [Hlt|Hge].
  { split; [by split; [intros _; apply Hsingle|]|]. intros Hocc. by apply Hsingle in Hlt. }
  assert (∀ x : outcome metrics.FileDiffMetrics,
            isOk x = true ∨ x = Panic →
            (x = Err (ErrorNew ("File: " +:+ filePath +:+ " not found in the given commitHash"))
             ↔ ¬ occursIn ("diff --git a/" +:+ filePath) (PatchString patch)) ∧
            (occursIn ("diff --git a/" +:+ filePath) (PatchString patch) →
             isOk x = true ∨ x = Panic)) as Hshape.
  { intros x Hx. split; [|done]. split.
    - intros ->. by destruct Hx.
    - intros Hno. by apply Hsingle in Hno. }
  apply Hshape. clear Hshape Hsingle.
  destruct (index_1_result (strings.Split (PatchString patch) ("diff --git a/" +:+ filePath)))
    as [H1 | ->]; [|by right].
  destruct (metrics.index _ 1) as [text|?| |]; try done. cbn [mbind outcome_bind].
  destruct (index_1_result (strings.Split text "+++")) as [H2 | ->]; [|by right].
  destruct (metrics.index _ 1) as [fileDiff|?| |]; try done. cbn [mbind outcome_bind].
  pose proof (index_0_Split fileDiff "diff --git") as H3.
  destruct (metrics.index _ 0) as [fileDiff'|?| |]; try (by discriminate H3).
  cbn [mbind outcome_bind].
  destruct (metrics.countMarked _). left. done.
Qed.

Lemma CalculateDiffMetricsWhitespaceExcluded_not_found_witness :
  (metrics.CalculateDiffMetricsWhitespaceExcluded example.Diff example.repo "nofile.txt" =
     Err (ErrorNew ("File: " +:+ "nofile.txt" +:+ " not found in the given commitHash"))
   ↔ ¬ occursIn ("diff --git a/" +:+ "nofile.txt") (PatchString example.patch)) ∧
  (occursIn ("diff --git a/" +:+ "nofile.txt") (PatchString example.patch) →
   isOk (metrics.CalculateDiffMetricsWhitespaceExcluded example.Diff example.repo "nofile.txt")
     = true ∨
   metrics.CalculateDiffMetricsWhitespaceExcluded example.Diff example.repo "nofile.txt"
     = Panic).
Proof.
  apply (CalculateDiffMetricsWhitespaceExcluded_not_found example.Diff example.repo
           "nofile.txt" example.patch example.tree2 example.tree1).
  vm_compute. reflexivity.
Defined.

Lemma countMarkedFrom_zero lines : metrics.countMarkedFrom (0, 0) lines = metrics.countMarked lines.
Proof. reflexivity. Qed.

Lemma aggrTextsLoop_result texts acc :
  (metrics.aggrTextsLoop texts acc = Panic ↔ Exists (fun t => ¬ occursIn "+++" t) texts) ∧
  (metrics.aggrTextsLoop texts acc = Panic ∨ isOk (metrics.aggrTextsLoop texts acc) = true).
Proof.
  revert acc. induction texts as [|text texts IH]; intros acc.
  { simpl. split; [|by right]. split; [done|]. by intros ?%Exists_nil. }
  cbn [metrics.aggrTextsLoop].
  pose proof (index_1_Panic text "+++") as Hpanic.
  destruct (index_1_result (strings.Split text "+++")) as [H1|H1].
  - destruct (metrics.index (strings.Split text "+++") 1) as [fileDiff|?| |] eqn:E;
      try done.
    cbn [mbind outcome_bind].
    pose proof (index_0_Split fileDiff "diff --git") as H3.
    destruct (metrics.index _ 0) as [fileDiff'|?| |]; try (by discriminate H3).
    cbn [mbind outcome_bind].
    destruct (IH (metrics.countMarkedFrom acc (strings.Split fileDiff' gitfuncs.nl)))
      as [IHp IHr].
    split; [|done]. rewrite IHp, Exists_cons. split; [auto|].
    intros [Hno|?]; [|done]. apply Hpanic in Hno; [congruence|done].
  - rewrite H1. cbn [mbind outcome_bind]. split; [|by left].
    split; [|done]. intros _. apply Exists_cons. left. by apply Hpanic.
Qed.

(** X12. [AggrDiffMetricsWhitespaceExcluded] never returns an error: it
    returns the aggregate or it panics, and it panics exactly when, of the
    pieces that follow a [diff --git a/] in the text of the patch, one has
    no [+++] in it (as the piece of a file patch without text lines). When
    the text of the patch has no [diff --git a/] the insertions and the
    deletions are 0. *)
Theorem AggrDiffMetricsWhitespaceExcluded_outcome
    (Diff : Tree.t → Tree.t → Patch) (repo : Repository)
    (patch : Patch) (tree parentTree : Tree.t) :
  gitfuncs.CommitDiff Diff repo = Ok (patch, tree, parentTree) →
  (metrics.AggrDiffMetricsWhitespaceExcluded Diff repo = Panic ↔
   Exists (fun t => ¬ occursIn "+++" t)
          (tail (strings.Split (PatchString patch) "diff --git a/"))) ∧
  (metrics.AggrDiffMetricsWhitespaceExcluded Diff repo = Panic ∨
   isOk (metrics.AggrDiffMetricsWhitespaceExcluded Diff repo) = true) ∧
  (¬ occursIn "diff --git a/" (PatchString patch) →
   ∃ m, metrics.AggrDiffMetricsWhitespaceExcluded Diff repo = Ok m ∧
        metrics.Insertions (metrics.AggrEmbedded m) = 0 ∧
        metrics.Deletions (metrics.AggrEmbedded m) = 0).
Proof.
  intros Hdiff. rewrite (AggrDiffMetricsWhitespaceExcluded_eq _ _ _ _ _ Hdiff).
  destruct (aggrTextsLoop_result
              (tail (strings.Split (PatchString patch) "diff --git a/")) (0, 0))
    as [Hpanic Hres].
  split; [|split].
  - rewrite <-Hpanic. by destruct (metrics.aggrTextsLoop _ _).
  - destruct Hres as [-> | Hok]; [by left|right].
    by destruct (metrics.aggrTextsLoop _ _).
  - intros Hno. apply (Split_single _ "diff --git a/") in Hno; [|done].
    pose proof (splitFrom_length "diff --git a/" 0 (PatchString patch)) as Hlen.
    change (strings.splitFrom "diff --git a/" 0 (PatchString patch))
      with (strings.Split (PatchString patch) "diff --git a/") in Hlen.
    destruct (strings.Split (PatchString patch) "diff --git a/") as [|t0 [|t1 ts]];
      simpl in Hno, Hlen; try lia.
    eexists. split; [reflexivity|]. done.
Qed.

Lemma AggrDiffMetricsWhitespaceExcluded_outcome_witness :
  (metrics.AggrDiffMetricsWhitespaceExcluded example.Diff example.repo = Panic ↔
   Exists (fun t => ¬ occursIn "+++" t)
          (tail (strings.Split (PatchString example.patch) "diff --git a/"))) ∧
  (metrics.AggrDiffMetricsWhitespaceExcluded example.Diff example.repo = Panic ∨
   isOk (metrics.AggrDiffMetricsWhitespaceExcluded example.Diff example.repo) = true) ∧
  (¬ occursIn "diff --git a/" (PatchString example.patch) →
   ∃ m, metrics.AggrDiffMetricsWhitespaceExcluded example.Diff example.repo = Ok m ∧
        metrics.Insertions (metrics.AggrEmbedded m) = 0 ∧
        metrics.Deletions (metrics.AggrEmbedded m) = 0).
Proof.
  apply (AggrDiffMetricsWhitespaceExcluded_outcome example.Diff example.repo
           example.patch example.tree2 example.tree1).
  vm_compute. reflexivity.
Defined.

(** ** Ranges of commits *)

(** X13. [RevList] has two outcomes, the commits or the error of the
    traversal that an object was not found, and it never panics; it fails
    exactly when something reachable from one of the two commits cannot be
    visited. [GetDistinctAuthorsEMailIds] returns when [RevList] does and
    fails with the error of [RevList] otherwise. *)
Theorem RevList_fails_on_missing_object
    (rnd : nat) (r : Repository) (beginCommit endCommit filePath : string) :
  (isOk (gitfuncs.RevList rnd r beginCommit endCommit) = true ∨
   gitfuncs.RevList rnd r beginCommit endCommit = Err ErrObjectNotFound) ∧
  (gitfuncs.RevList rnd r beginCommit endCommit = Err ErrObjectNotFound ↔
   ¬ (traversable (Storer r) beginCommit ∧ traversable (Storer r) endCommit)) ∧
  (isOk (gitfuncs.GetDistinctAuthorsEMailIds rnd r beginCommit endCommit filePath) =
   isOk (gitfuncs.RevList rnd r beginCommit endCommit)) ∧
  (∀ err, gitfuncs.RevList rnd r beginCommit endCommit = Err err →
          gitfuncs.GetDistinctAuthorsEMailIds rnd r beginCommit endCommit filePath = Err err).
Proof.
  pose proof (RevList_result rnd r beginCommit endCommit) as Hres.
  pose proof (RevList_Ok_iff rnd r beginCommit endCommit) as Hiff.
  split; [done|]. split; [|split].
  - rewrite <-Hiff. destruct Hres as [Hok|Herr].
    + rewrite Hok. split; [|done]. intros Herr. by rewrite Herr in Hok.
    + rewrite Herr. split; [|done]. by intros _.
  - unfold gitfuncs.GetDistinctAuthorsEMailIds.
    destruct (gitfuncs.RevList rnd r beginCommit endCommit) as [commits|?| |] eqn:HRev;
      try done.
    cbn [mbind outcome_bind].
    destruct (RevList_sound rnd r _ _ _ HRev) as (_ & _ & Htrees).
    rewrite authorsOf_spec; [done|]. intros c Hc. by apply Htrees.
  - intros err Herr. unfold gitfuncs.GetDistinctAuthorsEMailIds. by rewrite Herr.
Qed.

(** X14. Ranges compose. When [mid] is reachable from [newest] and
    [oldest] from [mid], in a history where everything reachable from
    [newest] can be visited, the three calls return, no commit is in both
    the range from [newest] to [mid] and the range from [mid] to [oldest],
    and the range from [newest] to [oldest] has the commits of the two,
    each once. *)
Theorem RevList_ranges_compose
    (rnd : nat) (r : Repository) (newest mid oldest : string) :
  traversable (Storer r) newest →
  reachable (Storer r) newest mid →
  reachable (Storer r) mid oldest →
  ∃ whole upper lower,
    gitfuncs.RevList rnd r newest oldest = Ok whole ∧
    gitfuncs.RevList rnd r newest mid = Ok upper ∧
    gitfuncs.RevList rnd r mid oldest = Ok lower ∧
    (∀ c, c ∈ upper → c ∉ lower) ∧
    whole ≡ₚ upper ++ lower.
Proof.
  intros Hnew Hmid Hold.
  assert (traversable (Storer r) mid) as Htmid by (by eapply traversable_reachable).
  assert (traversable (Storer r) oldest) as Htold by (by eapply traversable_reachable).
  destruct (RevList_spec rnd r newest oldest Hnew Htold) as (whole & Hwhole & Hw).
  destruct (RevList_spec rnd r newest mid Hnew Htmid) as (upper & Hupper & Hu).
  destruct (RevList_spec rnd r mid oldest Htmid Htold) as (lower & Hlower & Hl).
  exists whole, upper, lower. do 3 (split; [done|]).
  assert (∀ c, c ∈ upper → c ∉ lower) as Hdisj.
  { intros c (_ & _ & Hno)%Hu (_ & Hyes & _)%Hl. done. }
  split; [done|].
  destruct (RevList_sound rnd r _ _ _ Hwhole) as (Hnd_w & _ & _).
  destruct (RevList_sound rnd r _ _ _ Hupper) as (Hnd_u & _ & _).
  destruct (RevList_sound rnd r _ _ _ Hlower) as (Hnd_l & _ & _).
  apply NoDup_Permutation; [done|by apply NoDup_app|].
  intros c. rewrite elem_of_app, Hw, Hu, Hl.
  destruct (processObject_spec (Storer r) ∅ mid) as (seen & _ & _ & Hseen);
    [apply closed_empty|done|].
  split.
  - intros (Hc & Hreach & Hno).
    destruct (decide (Commit.Hash c ∈ seen)) as [Hin|Hout].
    + right. apply Hseen in Hin as [?|?]; [set_solver|done].
    + left. split; [done|]. split; [done|]. intros ?. apply Hout, Hseen. by right.
  - intros [(Hc & Hreach & Hno)|(Hc & Hreach & Hno)].
    + split; [done|]. split; [done|]. intros ?. apply Hno. by etrans.
    + split; [done|]. split; [by etrans|done].
Qed.

Lemma RevList_ranges_compose_witness :
  ∃ whole upper lower,
    gitfuncs.RevList 0 example.repo "c2" "c0" = Ok whole ∧
    gitfuncs.RevList 0 example.repo "c2" "c1" = Ok upper ∧
    gitfuncs.RevList 0 example.repo "c1" "c0" = Ok lower ∧
    (∀ c, c ∈ upper → c ∉ lower) ∧
    whole ≡ₚ upper ++ lower.
Proof.
  apply (RevList_ranges_compose 0 example.repo "c2" "c1" "c0").
  - apply processObject_reachable. vm_compute. reflexivity.
  - apply rtc_once. change ("c1" ∈ ["t2"; "c1"]). repeat constructor.
  - apply rtc_once. change ("c0" ∈ ["t1"; "c0"]). repeat constructor.
Defined.
